(** * lc0crawl: the line parser, the statistic derivation and the two-pass
    analysis driver of [lc0crawl/main.py], embedded in Rocq.

    Modelling conventions.
    - A Python [str] is a [string]; its characters are the code points
      0..255 (the engine's diagnostic lines are ASCII).
    - A Python [float] is an IEEE 754 binary64 number: a finite value is the
      rational it denotes ([Fin q]), next to the two infinities and NaN.
      Every arithmetic operation computes the exact rational result and
      rounds it to the nearest binary64 number, ties to even, subnormal
      numbers included; a result beyond the largest finite number becomes an
      infinity.  The two zeros [0.0] and [-0.0] are identified: the program
      never divides by a parsed number, so their difference is not
      observable in its control flow.
    - A [decimal.Decimal] is a sign, a coefficient and an exponent; a
      division rounds to the default context precision of 28 digits
      (the exponent limits of the context, reached only by a literal of
      about a million digits, are not modelled).
    - A [dict] read only by key is a [gmap]; the [results] dictionary, which
      is iterated in insertion order, is an association list.
    - A Python exception is a value of [exn]; code that raises returns
      [Raise e], and the effects performed before the raise are kept. *)

From Stdlib Require Import ZArith QArith Qabs Qround Qpower Lia Lqa.
From Stdlib Require Import String Ascii List OrderedTypeEx.
From Stdlib Require Import PrimFloat FloatOps SpecFloat.
From stdpp Require Import gmap strings.

Import ListNotations.
Local Open Scope Z_scope.

(** ** Binary64 arithmetic *)

Module Float.

Local Open Scope Q_scope.

(** [2^e] for any integer exponent. *)
Definition pow2 (e : Z) : Q := (2 # 1) ^ e.

(** [floor (log2 |x|)] for [x <> 0]. *)
Definition ilog2 (x : Q) : Z :=
  let e0 := (Z.log2 (Z.abs (Qnum x)) - Z.log2 (Zpos (Qden x)))%Z in
  if Qle_bool (pow2 e0) (Qabs x) then e0 else (e0 - 1)%Z.

(** Nearest integer, ties to the even one. *)
Definition round_half_even (x : Q) : Z :=
  let f := Qfloor x in
  match Qcompare (x - inject_Z f) (1 # 2) with
  | Lt => f
  | Gt => (f + 1)%Z
  | Eq => if Z.even f then f else (f + 1)%Z
  end.

Definition prec : Z := 53.
Definition emin : Z := -1074.

(** Exponent of the unit in the last place of the binade of [x]. *)
Definition ulp_exp (x : Q) : Z := Z.max (ilog2 x - (prec - 1)) emin.

(** Round to nearest, ties to even, on the binary64 grid with an unbounded
    exponent above. *)
Definition b64_round (x : Q) : Q :=
  if Qeq_bool x 0 then 0
  else let q := ulp_exp x in
       Qred (inject_Z (round_half_even (x / pow2 q)) * pow2 q).

(** The largest finite binary64 number, [(2^53 - 1) * 2^971]. *)
Definition max_float : Q := inject_Z ((2 ^ 53 - 1) * 2 ^ 971).

Inductive pyfloat : Type :=
| Fin (q : Q)
| Inf (negative : bool)
| NaN.

Definition Qneg_bool (x : Q) : bool := negb (Qle_bool 0 x).

(** The binary64 result of an operation whose exact result is [x]. *)
Definition to_float (x : Q) : pyfloat :=
  let r := b64_round x in
  if Qle_bool (Qabs r) max_float then Fin r else Inf (Qneg_bool r).

Definition fneg (a : pyfloat) : pyfloat :=
  match a with
  | Fin x => Fin (Qred (- x))
  | Inf s => Inf (negb s)
  | NaN => NaN
  end.

Definition fadd (a b : pyfloat) : pyfloat :=
  match a, b with
  | Fin x, Fin y => to_float (x + y)
  | Fin _, Inf s => Inf s
  | Inf s, Fin _ => Inf s
  | Inf s, Inf t => if Bool.eqb s t then Inf s else NaN
  | NaN, _ | _, NaN => NaN
  end.

Definition fsub (a b : pyfloat) : pyfloat := fadd a (fneg b).

(** [a / b] for a divisor that is not zero; Python raises
    [ZeroDivisionError] on a zero divisor, see [fdiv]. *)
Definition fdiv_nz (a b : pyfloat) : pyfloat :=
  match a, b with
  | Fin x, Fin y => to_float (x / y)
  | Fin _, Inf _ => Fin 0
  | Inf s, Fin y => Inf (xorb s (Qneg_bool y))
  | Inf _, Inf _ => NaN
  | NaN, _ | _, NaN => NaN
  end.

Definition is_zero (a : pyfloat) : bool :=
  match a with Fin x => Qeq_bool x 0 | _ => false end.

Definition fdiv (a b : pyfloat) : option pyfloat :=
  if is_zero b then None else Some (fdiv_nz a b).

(** The literals of the source. *)
Definition one : pyfloat := Fin 1.
Definition two : pyfloat := Fin 2.

End Float.

Import Float.

(** *** The same operations on the primitive binary64 numbers of Rocq

    Used to test the rational model above against the machine arithmetic on
    sample inputs (see [model_agrees_with_machine_floats]). *)

Module Machine.

(** The primitive float with the value of a rational [n / 2^k] whose
    numerator is below [2^63]. *)
Definition of_Q (q : Q) : float :=
  let e := (- Z.log2 (Zpos (Qden q)))%Z in
  match Qnum q with
  | Z0 => PrimFloat.zero
  | Zpos m => SF2Prim (S754_finite false m e)
  | Zneg m => SF2Prim (S754_finite true m e)
  end.

Definition to_py (f : float) : pyfloat :=
  match Prim2SF f with
  | S754_zero _ => Fin 0
  | S754_finite s m e =>
      Fin (Qred (inject_Z (if s then Zneg m else Zpos m) * pow2 e))
  | S754_infinity s => Inf s
  | S754_nan => NaN
  end.

(** [(wl - d + 1.0) / 2.0] and [1 - d - w] on primitive floats. *)
Definition derive_w (wl d : float) : float :=
  PrimFloat.div (PrimFloat.add (PrimFloat.sub wl d) (of_Q 1)) (of_Q 2).
Definition derive_l (d w : float) : float :=
  PrimFloat.sub (PrimFloat.sub (of_Q 1) d) w.

End Machine.

(** ** Exceptions and results *)

Inductive exn : Type :=
| KeyError (key : string)
| IndexError
| ValueError
| InvalidOperation
| ZeroDivisionError
| IntegrityError
| SystemExit (code : Z).

Inductive result (A : Type) : Type :=
| Ok (a : A)
| Raise (e : exn).
Arguments Ok {A} a.
Arguments Raise {A} e.

Definition rbind {A B} (r : result A) (k : A -> result B) : result B :=
  match r with
  | Ok a => k a
  | Raise e => Raise e
  end.

Declare Scope result_scope.
Delimit Scope result_scope with result.
Notation "x <- r ;; k" := (rbind r (fun x => k))
  (at level 100, r at next level, right associativity) : result_scope.

(** ** Strings and the two regular expressions of [parse_info_line] *)

Module Re.

Local Open Scope string_scope.
Local Open Scope nat_scope.

Definition code (c : ascii) : nat := nat_of_ascii c.

Definition between (lo hi n : nat) : bool := (lo <=? n) && (n <=? hi).

Definition is_digit (c : ascii) : bool := between 48 57 (code c).
Definition is_lower (c : ascii) : bool := between 97 122 (code c).
Definition is_upper (c : ascii) : bool := between 65 90 (code c).

(** [\w] of a [str] pattern: the alphanumeric characters and the underscore;
    above 127 these are the letters and numeric characters of Latin-1. *)
Definition is_word (c : ascii) : bool :=
  let n := code c in
  is_digit c || is_lower c || is_upper c || (n =? 95)
  || (n =? 170) || (n =? 178) || (n =? 179) || (n =? 181) || (n =? 185)
  || (n =? 186) || between 188 190 n || between 192 214 n
  || between 216 246 n || between 248 255 n.

(** [\s] of a [str] pattern. *)
Definition is_space (c : ascii) : bool :=
  let n := code c in
  between 9 13 n || between 28 32 n || (n =? 133) || (n =? 160).

(** The class [[\-\.0-9\%]]. *)
Definition is_value_char (c : ascii) : bool :=
  let n := code c in
  (n =? 45) || (n =? 46) || is_digit c || (n =? 37).

(** The class [[0-9a-z]]. *)
Definition is_move_char (c : ascii) : bool := is_digit c || is_lower c.

(** The longest prefix of characters of a class, and what follows it: a
    greedy [c*]. *)
Fixpoint span (p : ascii -> bool) (s : string) : string * string :=
  match s with
  | EmptyString => (EmptyString, EmptyString)
  | String c s' =>
      if p c then let (a, b) := span p s' in (String c a, b)
      else (EmptyString, s)
  end.

(** A match of the statistic-group pattern at the start of [s]: an opening
    parenthesis, group 1 [\w+], a colon, [\s*], group 2 (any number of
    characters of the class [-.0-9%]) and a closing parenthesis.  The result
    holds the two groups and the rest of [s] after the match.  Each repeated
    class is disjoint from the character that must follow it, so the greedy
    match is the only one (see [match_group_iff]). *)
Definition match_group (s : string) : option (string * string * string) :=
  match s with
  | String "(" s1 =>
      let (key, s2) := span is_word s1 in
      match key, s2 with
      | String _ _, String ":" s3 =>
          let (_, s4) := span is_space s3 in
          let (value, s5) := span is_value_char s4 in
          match s5 with
          | String ")" rest => Some (key, value, rest)
          | _ => None
          end
      | _, _ => None
      end
  | _ => None
  end.

Fixpoint all_chars (p : ascii -> bool) (s : string) : bool :=
  match s with
  | EmptyString => true
  | String c s' => p c && all_chars p s'
  end.

(** What the pattern means: [s] begins with a match whose groups are [key]
    and [value] and which is followed by [rest]. *)
Definition matches_group (s key value rest : string) : Prop :=
  exists blanks,
    s = "(" ++ key ++ ":" ++ blanks ++ value ++ ")" ++ rest /\
    key <> "" /\
    all_chars is_word key = true /\
    all_chars is_space blanks = true /\
    all_chars is_value_char value = true.

(** [re.findall] scans from the left; after a match it resumes behind it,
    otherwise one character further.  [skip] counts the characters of the
    last match still to be passed over. *)
Fixpoint findall_from (skip : nat) (s : string) : list (string * string) :=
  match s with
  | EmptyString => []
  | String _ s' =>
      match skip with
      | S k => findall_from k s'
      | O =>
          match match_group s with
          | Some (key, value, rest) =>
              (key, value) :: findall_from (String.length s' - String.length rest) s'
          | None => findall_from 0 s'
          end
      end
  end.

(** [re.findall] with the statistic-group pattern: the pairs of groups of
    all matches, from left to right. *)
Definition findall_groups (s : string) : list (string * string) :=
  findall_from 0 s.

(** [re.findall] with the move pattern, a start-of-string anchor followed
    by one or more characters of [0-9a-z]: the anchor matches at the start
    of the string only, so there is at most one match. *)
Definition findall_move (s : string) : list string :=
  match fst (span is_move_char s) with
  | EmptyString => []
  | m => [m]
  end.

(** [sub in s] *)
Fixpoint contains (sub s : string) : bool :=
  String.prefix sub s ||
  match s with
  | EmptyString => false
  | String _ s' => contains sub s'
  end.

(** [s.replace(c, e)] for a one-character [c] and the empty string [e] *)
Fixpoint remove_char (c : ascii) (s : string) : string :=
  match s with
  | EmptyString => EmptyString
  | String a s' =>
      if Ascii.eqb a c then remove_char c s' else String a (remove_char c s')
  end.

(** [s.split(sep)] for a one-character separator *)
Fixpoint split_on (sep : ascii) (s : string) : list string :=
  match s with
  | EmptyString => [EmptyString]
  | String c s' =>
      if Ascii.eqb c sep then EmptyString :: split_on sep s'
      else match split_on sep s' with
           | w :: ws => String c w :: ws
           | [] => [String c EmptyString]
           end
  end.

End Re.

(** ** Decimal literals, [decimal.Decimal] and [float()] *)

Module Dec.

Local Open Scope Z_scope.

(** The number [(-1)^neg * coeff * 10^exp]. *)
Record decimal : Type := mk_decimal {
  neg : bool;
  coeff : Z;
  exp : Z
}.

Definition digit_value (c : ascii) : Z := Z.of_nat (Re.code c) - 48.

Fixpoint digits_value (acc : Z) (s : string) : Z :=
  match s with
  | EmptyString => acc
  | String c s' => digits_value (10 * acc + digit_value c) s'
  end.

(** The numerals that [float()] and [Decimal()] both accept among the
    strings over the alphabet [-.0-9%]: an optional minus sign, then digits
    with at most one point and at least one digit.  Every other string over
    that alphabet is rejected by both. *)
Definition parse (s : string) : option decimal :=
  let (sign, body) :=
    match s with
    | String "-" s' => (true, s')
    | _ => (false, s)
    end in
  let (int_part, after_int) := Re.span Re.is_digit body in
  let (frac_part, rest) :=
    match after_int with
    | String "." s' => Re.span Re.is_digit s'
    | _ => (EmptyString, after_int)
    end in
  match rest, (int_part ++ frac_part)%string with
  | EmptyString, String _ _ =>
      Some {| neg := sign;
              coeff := digits_value 0 (int_part ++ frac_part);
              exp := - Z.of_nat (String.length frac_part) |}
  | _, _ => None
  end.

Definition to_Q (d : decimal) : Q :=
  let m := inject_Z (if neg d then - coeff d else coeff d) in
  (m * (10 # 1) ^ exp d)%Q.

(** Number of decimal digits of a coefficient. *)
Fixpoint ndigits_aux (fuel : nat) (n : Z) : Z :=
  match fuel with
  | O => 1
  | S f => if n <? 10 then 1 else 1 + ndigits_aux f (n / 10)
  end.

Definition ndigits (n : Z) : Z := ndigits_aux (Z.to_nat (Z.log2 n)) n.

(** Context precision of the [decimal] module. *)
Definition context_prec : Z := 28.

(** Rounding to the context precision, [ROUND_HALF_EVEN]. *)
Definition round_context (d : decimal) : decimal :=
  let k := ndigits (coeff d) - context_prec in
  if k <=? 0 then d
  else {| neg := neg d;
          coeff := round_half_even (inject_Z (coeff d) / inject_Z (10 ^ k));
          exp := exp d + k |}.

(** [d / 100]: the exact quotient, rounded to the context precision. *)
Definition div100 (d : decimal) : decimal :=
  round_context {| neg := neg d; coeff := coeff d; exp := exp d - 2 |}.

(** [float(d)] for a [Decimal] and [float(s)] for a numeral: the nearest
    binary64 number. *)
Definition to_float (d : decimal) : pyfloat := Float.to_float (to_Q d).

End Dec.

(** ** The line parser: [parse_info_line] *)

Local Open Scope string_scope.

(** The body of the loop for a group that is not skipped: the number stored
    under [key]. *)
Definition stat_value (key value : string) : result pyfloat :=
  if String.eqb key "P" then
    match Dec.parse (Re.remove_char "%" value) with
    | Some d => Ok (Dec.to_float (Dec.div100 d))
    | None => Raise InvalidOperation
    end
  else
    match Dec.parse value with
    | Some d => Ok (Dec.to_float d)
    | None => Raise ValueError
    end.

(** The loop over [matches], started with the dictionary [values]. *)
Fixpoint parse_groups (matches : list (string * string))
    (values : gmap string pyfloat) : result (gmap string pyfloat) :=
  match matches with
  | [] => Ok values
  | (key, value) :: rest =>
      if Re.contains "-.-" value then parse_groups rest values
      else (v <- stat_value key value ;;
            parse_groups rest (<[key := v]> values))%result
  end.

(** A line that does not begin with a character of [0-9a-z]. *)
Definition no_move_start (s : string) : Prop :=
  match s with
  | EmptyString => True
  | String c _ => Re.is_move_char c = false
  end.

Definition parse_info_line (s : string)
  : result (string * gmap string pyfloat) :=
  (values <- parse_groups (Re.findall_groups s) ∅ ;;
   match Re.findall_move s with
   | move :: _ => Ok (move, values)
   | [] => Raise IndexError
   end)%result.

(** ** Rows of the two tables *)

Inductive PositionType : Type := FEN | MOVES.

(** A JSON value of the [settings] column, as far as engine options use it. *)
Inductive setting : Type :=
| SBool (b : bool)
| SNum (q : Q)
| SStr (s : string).

Module Job.
Record t : Type := mk {
  job_id : Z;
  position : string;
  network : string;
  setting_hash : string;
  position_type : PositionType;
  settings : gmap string setting
}.
End Job.

Module Result.
Record t : Type := mk {
  position : string;
  network : string;
  setting_hash : string;
  move : string;
  q_value : option pyfloat;
  policy : option pyfloat;
  W : option pyfloat;
  D : option pyfloat;
  L : option pyfloat;
  M : option pyfloat
}.

Definition set_q_value (v : pyfloat) (r : t) : t :=
  mk (position r) (network r) (setting_hash r) (move r)
     (Some v) (policy r) (W r) (D r) (L r) (M r).
Definition set_W (v : pyfloat) (r : t) : t :=
  mk (position r) (network r) (setting_hash r) (move r)
     (q_value r) (policy r) (Some v) (D r) (L r) (M r).
Definition set_D (v : pyfloat) (r : t) : t :=
  mk (position r) (network r) (setting_hash r) (move r)
     (q_value r) (policy r) (W r) (Some v) (L r) (M r).
Definition set_L (v : pyfloat) (r : t) : t :=
  mk (position r) (network r) (setting_hash r) (move r)
     (q_value r) (policy r) (W r) (D r) (Some v) (M r).
Definition set_M (v : pyfloat) (r : t) : t :=
  mk (position r) (network r) (setting_hash r) (move r)
     (q_value r) (policy r) (W r) (D r) (L r) (Some v).

(** The primary key [result_pk]. *)
Definition pk (r : t) : string * string * string * string :=
  (position r, network r, setting_hash r, move r).
End Result.

(** ** The [results] dictionary: insertion ordered *)

Module Dict.

Definition t : Type := list (string * Result.t).

Fixpoint get (k : string) (d : t) : option Result.t :=
  match d with
  | [] => None
  | (k', v) :: d' => if String.eqb k k' then Some v else get k d'
  end.

(** [d[k] = v]: an existing key keeps its place. *)
Fixpoint set (k : string) (v : Result.t) (d : t) : t :=
  match d with
  | [] => [(k, v)]
  | (k', v') :: d' =>
      if String.eqb k k' then (k, v) :: d' else (k', v') :: set k v d'
  end.

Definition keys (d : t) : list string := map fst d.
Definition values (d : t) : list Result.t := map snd d.

End Dict.

(** [d[k]] on a dictionary of numbers *)
Definition getitem (values : gmap string pyfloat) (k : string)
  : result pyfloat :=
  match values !! k with
  | Some v => Ok v
  | None => Raise (KeyError k)
  end.

(** [results[move]] *)
Definition getrow (results : Dict.t) (move : string) : result Result.t :=
  match Dict.get move results with
  | Some r => Ok r
  | None => Raise (KeyError move)
  end.

(** ** Statistic derivation (lines 197 to 199) *)

(** [w = (values["WL"] - d + 1.0) / 2.0] *)
Definition derive_w (wl d : pyfloat) : result pyfloat :=
  match fdiv (fadd (fsub wl d) one) two with
  | Some w => Ok w
  | None => Raise ZeroDivisionError
  end.

(** [l = 1 - d - w]; the integer [1] converts to [1.0] exactly. *)
Definition derive_l (d w : pyfloat) : pyfloat := fsub (fsub one d) w.

(** ** The loops of the two passes *)

(** An item of the analysis stream: its ["string"] entry, if it has one. *)
Definition info : Type := option string.

(** [if "string" in line and "node" not in line["string"]] *)
Definition stat_line (line : info) : option string :=
  match line with
  | Some s => if Re.contains "node" s then None else Some s
  | None => None
  end.

Section Jobs.

Variables (position network setting_hash : string).

Definition new_row (move : string) (p : pyfloat) : Result.t :=
  Result.mk position network setting_hash move None (Some p)
            None None None None.

(** Body of the first loop (lines 162 to 176). *)
Definition pass1_step (results : Dict.t) (line : info) : result Dict.t :=
  match stat_line line with
  | None => Ok results
  | Some s =>
      (mv <- parse_info_line s ;;
       p <- getitem (snd mv) "P" ;;
       Ok (Dict.set (fst mv) (new_row (fst mv) p) results))%result
  end.

(** [results[move][field] = v], an item assignment on the row found under
    [move]. *)
Definition setfield (results : Dict.t) (move : string)
    (f : Result.t -> Result.t) : result Dict.t :=
  (r <- getrow results move ;; Ok (Dict.set move (f r) results))%result.

(** Body of the second loop (lines 195 to 204).  In each assignment the
    right-hand side is evaluated before the target is looked up. *)
Definition pass2_step (results : Dict.t) (line : info) : result Dict.t :=
  match stat_line line with
  | None => Ok results
  | Some s =>
      (mv <- parse_info_line s ;;
       d <- getitem (snd mv) "D" ;;
       wl <- getitem (snd mv) "WL" ;;
       w <- derive_w wl d ;;
       let l := derive_l d w in
       q <- getitem (snd mv) "Q" ;;
       results <- setfield results (fst mv) (Result.set_q_value q) ;;
       results <- setfield results (fst mv) (Result.set_W w) ;;
       results <- setfield results (fst mv) (Result.set_D d) ;;
       results <- setfield results (fst mv) (Result.set_L l) ;;
       m <- getitem (snd mv) "M" ;;
       setfield results (fst mv) (Result.set_M m))%result
  end.

(** A [for] loop over the analysis stream. *)
Fixpoint for_lines (step : Dict.t -> info -> result Dict.t)
    (lines : list info) (results : Dict.t) : result Dict.t :=
  match lines with
  | [] => Ok results
  | line :: rest =>
      (results <- step results line ;; for_lines step rest results)%result
  end.

Definition pass1 (lines : list info) : result Dict.t :=
  for_lines pass1_step lines [].

Definition pass2 (lines : list info) (results : Dict.t) : result Dict.t :=
  for_lines pass2_step lines results.

End Jobs.

(** ** The world of a run: engine processes, the session, the files *)

Inductive event : Type :=
| Popen (pid : nat)
| Configure (pid : nat) (options : gmap string setting)
| Quit (pid : nat).

Record world : Type := mk_world {
  running : list nat;          (* engine processes launched and not quit *)
  launched : nat;              (* number of processes launched so far *)
  events : list event;         (* calls made on engine processes *)
  pending : list Result.t;     (* rows added to the session, not committed *)
  table : list Result.t;       (* the committed rows of table results *)
  files : gset string          (* the weights files in the directory *)
}.

(** Code with effects: state passing, and a raise keeps the state. *)
Definition M (A : Type) : Type := world -> result A * world.

Definition ret {A} (a : A) : M A := fun w => (Ok a, w).
Definition raise {A} (e : exn) : M A := fun w => (Raise e, w).
Definition bind {A B} (m : M A) (k : A -> M B) : M B :=
  fun w => match m w with
           | (Ok a, w') => k a w'
           | (Raise e, w') => (Raise e, w')
           end.
Definition lift {A} (r : result A) : M A := fun w => (r, w).

Declare Scope M_scope.
Delimit Scope M_scope with M.
Notation "x <-- m ;; k" := (bind m (fun x => k))
  (at level 100, m at next level, right associativity) : M_scope.
Notation "m ;;; k" := (bind m (fun _ => k))
  (at level 100, right associativity) : M_scope.

(** [chess.engine.SimpleEngine.popen_uci(...)] *)
Definition popen_uci : M nat := fun w =>
  let pid := launched w in
  (Ok pid,
   mk_world (pid :: running w) (S pid) (events w ++ [Popen pid])
            (pending w) (table w) (files w)).

(** [lc0.configure(options)] *)
Definition configure (pid : nat) (options : gmap string setting) : M unit :=
  fun w =>
  (Ok tt,
   mk_world (running w) (launched w) (events w ++ [Configure pid options])
            (pending w) (table w) (files w)).

Definition not_pid (pid : nat) (p : nat) : bool := negb (Nat.eqb p pid).

(** [lc0.quit()] *)
Definition quit (pid : nat) : M unit := fun w =>
  (Ok tt,
   mk_world (List.filter (not_pid pid) (running w)) (launched w)
            (events w ++ [Quit pid]) (pending w) (table w) (files w)).

(** [session.add(res)] *)
Definition session_add (r : Result.t) : M unit := fun w =>
  (Ok tt,
   mk_world (running w) (launched w) (events w) (pending w ++ [r])
            (table w) (files w)).

Definition pk_eqb (a b : Result.t) : bool :=
  String.eqb (Result.position a) (Result.position b)
  && String.eqb (Result.network a) (Result.network b)
  && String.eqb (Result.setting_hash a) (Result.setting_hash b)
  && String.eqb (Result.move a) (Result.move b).

(** No two of the rows share their primary key. *)
Fixpoint pk_unique (rows : list Result.t) : bool :=
  match rows with
  | [] => true
  | r :: rest => negb (existsb (pk_eqb r) rest) && pk_unique rest
  end.

(** [session.commit()]: one transaction inserts every pending row; when the
    primary key constraint rejects one, the transaction is rolled back,
    which leaves the table as it was, and the commit raises. *)
Definition session_commit : M unit := fun w =>
  if pk_unique (table w ++ pending w) then
    (Ok tt,
     mk_world (running w) (launched w) (events w) []
              (table w ++ pending w) (files w))
  else
    (Raise IntegrityError,
     mk_world (running w) (launched w) (events w) [] (table w) (files w)).

Fixpoint add_all (rows : list Result.t) : M unit :=
  match rows with
  | [] => ret tt
  | r :: rest => (session_add r ;;; add_all rest)%M
  end.

(** ** [run_lc0_on_position] *)

Section Driver.

(** The chess library: the starting position [chess.Board()], a position
    from a FEN string [chess.Board(fen)] and [board.push_san(move)], the last
    two raising [ValueError] on malformed input. *)
Variable Board : Type.
Variable chess_Board : Board.
Variable chess_Board_fen : string -> result Board.
Variable push_san : Board -> string -> result Board.

(** The engine: the analysis stream it emits for the options it was
    configured with, a position and a node limit. *)
Variable lc0 : gmap string setting -> Board -> Z -> list info.

Fixpoint push_all (board : Board) (moves : list string) : result Board :=
  match moves with
  | [] => Ok board
  | m :: rest => (b <- push_san board m ;; push_all b rest)%result
  end.

(** Lines 138 to 145. *)
Definition resolve_position (position : string) (is_fen : bool)
  : result Board :=
  if String.eqb position "" || String.eqb position " " then Ok chess_Board
  else if is_fen then chess_Board_fen position
  else push_all chess_Board (Re.split_on " " position).

Definition policy_options (network : string) : gmap string setting :=
  <["VerboseMoveStats" := SBool true]>
  (<["NodesAsPlayouts" := SBool true]>
  (<["SmartPruningFactor" := SNum 0]>
  (<["PolicyTemperature" := SNum 1]>
  (<["MinibatchSize" := SNum 1]>
  (<["WeightsFile" := SStr network]> ∅))))).

Definition match_options (settings : gmap string setting) (network : string)
  : gmap string setting :=
  <["WeightsFile" := SStr network]> settings.

Definition run_lc0_on_position (position network : string)
    (settings : gmap string setting) (setting_hash : string) (is_fen : bool)
  : M unit :=
  (board <-- lift (resolve_position position is_fen) ;;
   (* first pass: the raw policy after one node *)
   engine <-- popen_uci ;;
   configure engine (policy_options network) ;;;
   results <-- lift (pass1 position network setting_hash
                       (lc0 (policy_options network) board 1)) ;;
   quit engine ;;;
   (* second pass: the match parameters with 800 nodes *)
   engine <-- popen_uci ;;
   configure engine (match_options settings network) ;;;
   results <-- lift (pass2 (lc0 (match_options settings network) board 800)
                       results) ;;
   add_all (Dict.values results) ;;;
   quit engine ;;;
   session_commit)%M.

End Driver.

(** *** The worlds a run passes through

    [in_pass1 w] is the world in which the first loop reads its lines,
    [in_pass2 w] the one in which the second loop does, and
    [before_commit rows w] the one in which [session.commit()] is called. *)

Definition in_pass1 (network : string) (w : world) : world :=
  let n := launched w in
  mk_world (n :: running w) (S n)
    ((events w ++ [Popen n]) ++ [Configure n (policy_options network)])
    (pending w) (table w) (files w).

Definition in_pass2 (network : string) (settings : gmap string setting)
    (w : world) : world :=
  let w1 := in_pass1 network w in
  let n := launched w1 in
  mk_world (n :: List.filter (not_pid (launched w)) (running w1)) (S n)
    (((events w1 ++ [Quit (launched w)]) ++ [Popen n])
     ++ [Configure n (match_options settings network)])
    (pending w) (table w) (files w).

Definition before_commit (network : string) (settings : gmap string setting)
    (rows : list Result.t) (w : world) : world :=
  let w2 := in_pass2 network settings w in
  mk_world (List.filter (not_pid (S (launched w))) (running w2)) (launched w2)
    (events w2 ++ [Quit (S (launched w))])
    (pending w ++ rows) (table w) (files w).

(** Every row of the dictionary sits under its own move. *)
Definition well_keyed (d : Dict.t) : Prop :=
  Forall (fun kv => Result.move (snd kv) = fst kv) d.

(** ** The job queue and the main loop *)

(** [Job.results == None]: no row of table results refers to the job. *)
Definition refers_to (j : Job.t) (r : Result.t) : bool :=
  String.eqb (Result.position r) (Job.position j)
  && String.eqb (Result.network r) (Job.network j)
  && String.eqb (Result.setting_hash r) (Job.setting_hash j).

Definition has_results (table : list Result.t) (j : Job.t) : bool :=
  existsb (refers_to j) table.

(** The order of [ORDER BY network]: column [network] is a string column,
    compared character by character. *)
Definition network_ltb (a b : Job.t) : bool :=
  String.ltb (Job.network a) (Job.network b).

(** The first row under [ORDER BY network DESC]: a row that no other row
    exceeds.  SQL leaves the order of rows with equal keys open; the model
    keeps the earliest such row of the table. *)
Fixpoint first_desc (best : Job.t) (rows : list Job.t) : Job.t :=
  match rows with
  | [] => best
  | j :: rest => first_desc (if network_ltb best j then j else best) rest
  end.

(** [session.query(Job).filter(Job.results == None)
      .order_by(Job.network.desc()).first()] *)
Definition first_job (jobs : list Job.t) (table : list Result.t)
  : option Job.t :=
  match List.filter (fun j => negb (has_results table j)) jobs with
  | [] => None
  | j :: rest => Some (first_desc j rest)
  end.

(** [int(s)] for a string of decimal digits with an optional sign, the form
    of a network identifier (blanks around the digits and digit separators,
    which [int] accepts as well, are not modelled). *)
Definition int_of_string (s : string) : result Z :=
  let (sign, body) :=
    match s with
    | String "-" s' => (-1, s')
    | String "+" s' => (1, s')
    | _ => (1, s)
    end in
  match body, snd (Re.span Re.is_digit body) with
  | String _ _, EmptyString => Ok (sign * Dec.digits_value 0 body)
  | _, _ => Raise ValueError
  end.

(** [str(last_network)] in the file name of the stale weights file. *)
Definition str_opt (o : option string) : string :=
  match o with Some s => s | None => "None" end.

(** [Path(...).unlink()] inside [try ... except: pass] *)
Definition unlink_quiet (name : string) : M unit := fun w =>
  (Ok tt,
   mk_world (running w) (launched w) (events w) (pending w) (table w)
            (files w ∖ {[name]})).

(** [download_network(url, number)] writes the file named [number]. *)
Definition download_network (url number : string) : M unit := fun w =>
  (Ok tt,
   mk_world (running w) (launched w) (events w) (pending w) (table w)
            ({[number]} ∪ files w)).

Definition get_world : M world := fun w => (Ok w, w).

Section Main.

Variable Board : Type.
Variable chess_Board : Board.
Variable chess_Board_fen : string -> result Board.
Variable push_san : Board -> string -> result Board.
Variable lc0 : gmap string setting -> Board -> Z -> list info.

(** Table jobs, and the catalogue [networks_df]: the columns [Number] and
    [Network] of its rows. *)
Variable jobs : list Job.t.
Variable networks_df : list (Z * string).

(** Lines 236 to 250: fetch the weights file of the job when it is missing. *)
Definition ensure_network (job : Job.t) (last_network : option string)
  : M (option string) :=
  (w <-- get_world ;;
   if decide (Job.network job ∈ files w) then ret last_network
   else
     unlink_quiet (str_opt last_network) ;;;
     number <-- lift (int_of_string (Job.network job)) ;;
     match List.filter (fun row => Z.eqb (fst row) number) networks_df with
     | [] => raise IndexError
     | row :: _ =>
         download_network (snd row) (Job.network job) ;;;
         ret (Some (Job.network job))
     end)%M.

(** One iteration of [while True]; it returns the new [last_network]. *)
Definition main_iteration (last_network : option string)
  : M (option string) :=
  (w <-- get_world ;;
   match first_job jobs (table w) with
   | None => raise (SystemExit 0)
   | Some job =>
       last_network <-- ensure_network job last_network ;;
       run_lc0_on_position Board chess_Board chess_Board_fen push_san lc0
         (Job.position job) (Job.network job) (Job.settings job)
         (Job.setting_hash job)
         (match Job.position_type job with FEN => true | MOVES => false end)
       ;;;
       ret last_network
   end)%M.

(** The loop, cut off after [fuel] iterations; it ends by itself only
    through an exception, [SystemExit] included. *)
Fixpoint main_loop (fuel : nat) (last_network : option string) : M unit :=
  match fuel with
  | O => ret tt
  | S n =>
      (last_network <-- main_iteration last_network ;;
       main_loop n last_network)%M
  end.

End Main.

(** ** A scripted engine and a stub of the chess library, for examples *)

Module Bench.

(** A board is the list of moves pushed onto it, or the FEN it came from. *)
Definition Board : Type := list string.
Definition start : Board := [].
Definition of_fen (fen : string) : result Board :=
  match fen with
  | EmptyString => Raise ValueError
  | _ => Ok [fen]
  end.
Definition push (b : Board) (move : string) : result Board :=
  match move with
  | EmptyString => Raise ValueError
  | _ => Ok (b ++ [move])%list
  end.

(** An engine that emits [first] for a limit of one node and [second]
    otherwise. *)
Definition scripted (first second : list info)
    (_ : gmap string setting) (_ : Board) (nodes : Z) : list info :=
  if Z.eqb nodes 1 then first else second.

Definition w0 : world := mk_world [] 0 [] [] [] ∅.

(** A job on the starting position, run in the empty world. *)
Definition run (first second : list info) : result unit * world :=
  run_lc0_on_position Board start of_fen push (scripted first second)
    "" "42850" ∅ "default" true w0.

Definition job (id : Z) (network : string) : Job.t :=
  Job.mk id "" network "default" FEN ∅.

(** Lines as the engine prints them: after one node no move has been
    visited, and the engine prints the sentinel for WL, D and M. *)
Definition e2e4_unvisited : string :=
  "e2e4 (P: 60.00%) (WL: -.-----) (D: -.---) (M: -.-) (Q: 0.10000)".
Definition d2d4_unvisited : string :=
  "d2d4 (P: 40.00%) (WL: -.-----) (D: -.---) (M: -.-) (Q: 0.10000)".
Definition e2e4_searched : string :=
  "e2e4 (P: 60.00%) (WL: 0.20000) (D: 0.300) (M: 30.5) (Q: 0.20000)".
Definition g1f3_searched : string :=
  "g1f3 (P: 5.00%) (WL: 0.10000) (D: 0.400) (M: 40.0) (Q: 0.10000)".
Definition summary : string := "node (P: 100.00%) (Q: 0.10000)".

Definition first_pass : list info :=
  [Some e2e4_unvisited; Some d2d4_unvisited; Some summary; None].

(** The dictionary the first pass makes of [first_pass]. *)
Definition first_rows : Dict.t :=
  [("e2e4", new_row "" "42850" "default" "e2e4" (to_float (6 # 10)));
   ("d2d4", new_row "" "42850" "default" "d2d4" (to_float (4 # 10)))].

(** A catalogue with one network, and a run with a given position. *)
Definition catalogue : list (Z * string) :=
  [(42850, "/get_network?sha=0f2f")].

Definition run_moves (position : string) (first second : list info)
  : result unit * world :=
  run_lc0_on_position Board start of_fen push (scripted first second)
    position "42850" ∅ "default" false w0.

(** The world with the weights file of network 42850 in the directory, and
    the world whose table has a row of the job on the starting position. *)
Definition w_ready : world := mk_world [] 0 [] [] [] {[ "42850" ]}.
Definition w_done : world :=
  mk_world [] 0 [] []
    [new_row "" "42850" "default" "e2e4" (to_float (6 # 10))] ∅.

End Bench.

(** ** Further notions used in the properties *)

(** The characters of a numeral: the minus sign, the point and the digits. *)
Definition is_numeral_char (c : ascii) : bool :=
  (Re.code c =? 45)%nat || (Re.code c =? 46)%nat || Re.is_digit c.

(** The row of a move that the second pass has filled in: the fields of the
    first pass with the five statistics set. *)
Definition filled (r : Result.t) (q w d l m : pyfloat) : Result.t :=
  Result.mk (Result.position r) (Result.network r) (Result.setting_hash r)
    (Result.move r) (Some q) (Result.policy r) (Some w) (Some d) (Some l)
    (Some m).

(** The row refers to the job triple. *)
Definition of_job (position network setting_hash : string) (r : Result.t)
  : Prop :=
  Result.position r = position /\ Result.network r = network /\
  Result.setting_hash r = setting_hash.

(** The rows as the first pass creates them: the policy of the move and
    nothing else. *)
Definition fresh_rows (position network setting_hash : string) (d : Dict.t)
  : Prop :=
  Forall (fun kv => exists p,
            snd kv = new_row position network setting_hash (fst kv) p) d.

(** What the second pass can make of a row: it leaves the row as it is, or
    fills in the five statistics, with W derived from some WL and D, and L
    from D and W. *)
Definition evolved (a b : Result.t) : Prop :=
  b = a \/
  exists q w d m wl,
    derive_w wl d = Ok w /\ b = filled a q w d (derive_l d w) m.

(** Two dictionaries with the same keys in the same order, the rows of the
    second evolved from those of the first. *)
Definition same_keys_evolved (r1 r2 : Dict.t) : Prop :=
  List.Forall2 (fun x y => fst x = fst y /\ evolved (snd x) (snd y)) r1 r2.

(** An exception other than [SystemExit]. *)
Definition not_exit (e : exn) : Prop :=
  match e with
  | SystemExit _ => False
  | _ => True
  end.

(** The world [w] with the directory [fs]. *)
Definition with_files (fs : gset string) (w : world) : world :=
  mk_world (running w) (launched w) (events w) (pending w) (table w) fs.

(** ** Tolerances of the statistic derivation *)

(** A bound on the rounding error of one operation on numbers up to 4. *)
Definition eps : Q := 1 # 1125899906842624.

(** The tolerance of the sum [W + D + L]. *)
Definition tol : Q := 1 # 1000000000.

(** Sample inputs [(wl, d)] of the derivation: binary64 numbers nearest to
    decimal literals, the ends of the ranges, and subnormal numbers. *)
Definition samples : list (Q * Q) :=
  [ (b64_round (2 # 10), b64_round (3 # 10));
    (b64_round (1 # 10), b64_round (7 # 10));
    (b64_round (-5 # 10), b64_round (25 # 100));
    (b64_round (-4842 # 100000), b64_round (313 # 1000));
    (1, 0); (-1, 1); (-1, 0); (1, 1); (0, 0);
    (b64_round (1 # 3), b64_round (2 # 3));
    (pow2 (-1074), 0); (- pow2 (-1074), pow2 (-1074));
    (pow2 (-1022), pow2 (-1074)); (-1 + pow2 (-53), pow2 (-1060)) ]%Q.

(** Model and machine arithmetic give the same [w] and [l] on [(wl, d)]. *)
Definition agree (x : Q * Q) : bool :=
  let (wl, d) := x in
  let w := Machine.derive_w (Machine.of_Q wl) (Machine.of_Q d) in
  let l := Machine.derive_l (Machine.of_Q d) w in
  match derive_w (Fin wl) (Fin d) with
  | Ok (Fin w') =>
      match Machine.to_py w, Machine.to_py l, derive_l (Fin d) (Fin w') with
      | Fin a, Fin b, Fin l' => Qeq_bool a w' && Qeq_bool b l'
      | _, _, _ => false
      end
  | _ => false
  end.

(** * Properties

    Each claim of the specification is settled by one theorem, marked with
    the identifier of the claim; the lemmas before it are shared. *)

Local Open Scope list_scope.

(** ** Binary64 rounding *)

Module FloatFacts.

Local Open Scope Q_scope.

Lemma pow2_pos e : 0 < pow2 e.
Proof. unfold pow2. apply Qpower_0_lt. reflexivity. Qed.

Lemma pow2_add a b : pow2 (a + b) == pow2 a * pow2 b.
Proof. unfold pow2. apply Qpower_plus. discriminate. Qed.

Lemma pow2_inject e : (0 <= e)%Z -> pow2 e == inject_Z (2 ^ e).
Proof. intros H. unfold pow2. symmetry. apply (Zpower_Qpower 2 e H). Qed.

Lemma round_half_even_error y :
  Qabs (inject_Z (round_half_even y) - y) <= 1 # 2.
Proof.
  unfold round_half_even.
  pose proof (Qfloor_le y) as Hlo.
  pose proof (Qlt_floor y) as Hhi.
  rewrite inject_Z_plus in Hhi. change (inject_Z 1) with 1 in Hhi.
  apply Qabs_Qle_condition.
  destruct (Qcompare_spec (y - inject_Z (Qfloor y)) (1 # 2)) as [He|Hl|Hg].
  - destruct (Z.even (Qfloor y)); rewrite ?inject_Z_plus. all: change (inject_Z 1) with 1; lra.
  - lra.
  - rewrite inject_Z_plus. change (inject_Z 1) with 1. lra.
Qed.

(** [ilog2] is a lower bound of the binary logarithm. *)
Lemma ilog2_le x : ~ x == 0 -> pow2 (ilog2 x) <= Qabs x.
Proof.
  intros Hx. unfold ilog2.
  set (a := Z.log2 (Z.abs (Qnum x))). set (b := Z.log2 (Z.pos (Qden x))).
  destruct (Qle_bool (pow2 (a - b)) (Qabs x)) eqn:E.
  - now apply Qle_bool_iff.
  - assert (Hn : (0 < Z.abs (Qnum x))%Z).
    { destruct x as [n d]. unfold Qeq in Hx. simpl in *. lia. }
    destruct (Z.log2_spec _ Hn) as [Ha _].
    destruct (Z.log2_spec (Z.pos (Qden x)) ltac:(lia)) as [_ Hb].
    fold a in Ha. fold b in Hb.
    assert (Ha0 : (0 <= a)%Z) by apply Z.log2_nonneg.
    assert (Hb0 : (0 <= b)%Z) by apply Z.log2_nonneg.
    replace (a - b - 1)%Z with (a - (b + 1))%Z by lia.
    unfold pow2. rewrite Qpower_minus by discriminate.
    fold (pow2 a). fold (pow2 (b + 1)).
    rewrite (pow2_inject a) by lia. rewrite (pow2_inject (b + 1)) by lia.
    apply Qle_shift_div_r.
    { rewrite <- pow2_inject by lia. apply pow2_pos. }
    destruct x as [n d]. unfold Qabs. cbn [Qnum Qden] in *.
    unfold Qle, Qmult, inject_Z. cbn [Qnum Qden].
    unfold Z.succ in Hb. nia.
Qed.

(** ... and the next power of two is above [|x|]: [ilog2 x] is the exponent
    of the binade of [x]. *)
Lemma ilog2_lt x : ~ x == 0 -> Qabs x < pow2 (ilog2 x + 1).
Proof.
  intros Hx. unfold ilog2.
  set (a := Z.log2 (Z.abs (Qnum x))). set (b := Z.log2 (Z.pos (Qden x))).
  destruct (Qle_bool (pow2 (a - b)) (Qabs x)) eqn:E.
  - assert (Hn : (0 < Z.abs (Qnum x))%Z).
    { destruct x as [n d]. unfold Qeq in Hx. simpl in *. lia. }
    destruct (Z.log2_spec _ Hn) as [_ Ha].
    destruct (Z.log2_spec (Z.pos (Qden x)) ltac:(lia)) as [Hb _].
    fold a in Ha. fold b in Hb.
    assert (Ha0 : (0 <= a)%Z) by apply Z.log2_nonneg.
    assert (Hb0 : (0 <= b)%Z) by apply Z.log2_nonneg.
    replace (a - b + 1)%Z with ((a + 1) - b)%Z by lia.
    unfold pow2. rewrite Qpower_minus by discriminate.
    fold (pow2 (a + 1)). fold (pow2 b).
    rewrite (pow2_inject (a + 1)) by lia. rewrite (pow2_inject b) by lia.
    apply Qlt_shift_div_l.
    { rewrite <- pow2_inject by lia. apply pow2_pos. }
    destruct x as [n d]. unfold Qabs. cbn [Qnum Qden] in *.
    unfold Qlt, Qmult, inject_Z. cbn [Qnum Qden].
    unfold Z.succ in Ha. nia.
  - replace (a - b - 1 + 1)%Z with (a - b)%Z by lia.
    apply Qnot_le_lt. intros H. apply Qle_bool_iff in H. congruence.
Qed.

(** The standard model of binary64 rounding: a relative error of at most
    [2^-53], or an absolute error of at most [2^-1075] among the subnormal
    numbers. *)
Lemma b64_round_error x :
  Qabs (b64_round x - x) <= pow2 (-53) * Qabs x + pow2 (-1075).
Proof.
  unfold b64_round.
  destruct (Qeq_bool x 0) eqn:E.
  - apply Qeq_bool_iff in E. rewrite E. vm_compute. discriminate.
  - apply Qeq_bool_neq in E.
    set (q := ulp_exp x).
    set (m := round_half_even (x / pow2 q)).
    rewrite Qred_correct.
    pose proof (pow2_pos q) as Hq.
    pose proof (round_half_even_error (x / pow2 q)) as Hm. fold m in Hm.
    assert (Hs : Qabs (inject_Z m * pow2 q - x) <= pow2 (q - 1)).
    { assert (E1 : inject_Z m * pow2 q - x == (inject_Z m - x / pow2 q) * pow2 q)
        by (field; lra).
      assert (E2 : pow2 (q - 1) == (1 # 2) * pow2 q).
      { replace (q - 1)%Z with (-1 + q)%Z by lia. rewrite pow2_add. reflexivity. }
      rewrite E1, E2, Qabs_Qmult, (Qabs_pos (pow2 q)) by lra.
      apply Qmult_le_compat_r; [exact Hm | lra]. }
    eapply Qle_trans; [exact Hs|].
    pose proof (Qabs_nonneg x) as Hx0.
    pose proof (pow2_pos (-53)) as H53. pose proof (pow2_pos (-1075)) as H1075.
    unfold q, ulp_exp, prec, emin.
    destruct (Z.max_spec (ilog2 x - (53 - 1)) (-1074)) as [[_ ->]|[_ ->]].
    + change (-1074 - 1)%Z with (-1075)%Z.
      assert (0 <= pow2 (-53) * Qabs x) by (apply Qmult_le_0_compat; lra). lra.
    + replace (ilog2 x - (53 - 1) - 1)%Z with (-53 + ilog2 x)%Z by lia.
      rewrite pow2_add.
      pose proof (ilog2_le x E) as Hl.
      assert (pow2 (-53) * pow2 (ilog2 x) <= pow2 (-53) * Qabs x).
      { apply Qmult_le_l; assumption. }
      lra.
Qed.



(** An operation whose exact result is at most 4 in magnitude returns a
    finite number within [eps] of it. *)
Lemma to_float_bounded x :
  Qabs x <= 4 ->
  exists r, to_float x = Fin r /\ Qabs (r - x) <= eps.
Proof.
  intros Hx. exists (b64_round x).
  pose proof (b64_round_error x) as He.
  assert (Hc : pow2 (-53) * 4 + pow2 (-1075) <= eps)
    by (apply Qle_bool_iff; vm_compute; reflexivity).
  assert (Hm : pow2 (-53) * Qabs x <= pow2 (-53) * 4).
  { apply Qmult_le_l; [apply pow2_pos | exact Hx]. }
  assert (Hr : Qabs (b64_round x - x) <= eps) by lra.
  split; [| exact Hr].
  unfold to_float.
  assert (Hb : Qabs (b64_round x) <= max_float).
  { apply Qle_trans with 5.
    - apply Qabs_Qle_condition. apply Qabs_Qle_condition in Hx.
      apply Qabs_Qle_condition in Hr. unfold eps in Hr. lra.
    - apply Qle_bool_iff. vm_compute. reflexivity. }
  apply Qle_bool_iff in Hb. now rewrite Hb.
Qed.

Ltac float_step x r E H :=
  let Hb := fresh "Hb" in
  assert (Hb : Qabs x <= 4)
    by (apply Qabs_Qle_condition; unfold eps in *; lra);
  destruct (to_float_bounded x Hb) as (r & E & H);
  apply Qabs_diff_Qle_condition in H; clear Hb.

(** C1: for every win-loss differential [wl] in [-1,1] and every draw
    probability [d] in [0,1], the derivation of lines 197 to 199 returns
    finite numbers [w] and [l]; [w] is [(wl - d + 1) / 2] and [l] is
    [1 - d - w] up to the rounding of binary64 arithmetic, and [w + d + l]
    is 1 within 1e-9, both as an exact sum of the three numbers and as the
    binary64 sum [s].  This holds for all such pairs, in particular for
    those whose [w] and [l] lie in [0,1]. *)
Theorem derivation_sums_to_one (wl d : Q) :
  -1 <= wl <= 1 -> 0 <= d <= 1 ->
  exists w l s : Q,
    derive_w (Fin wl) (Fin d) = Ok (Fin w) /\
    derive_l (Fin d) (Fin w) = Fin l /\
    fadd (fadd (Fin w) (Fin d)) (Fin l) = Fin s /\
    Qabs (w - (wl - d + 1) / 2) <= tol /\
    Qabs (l - (1 - d - w)) <= tol /\
    Qabs (w + d + l - 1) <= tol /\
    Qabs (s - 1) <= tol.
Proof.
  intros Hwl Hd.
  pose proof (Qred_correct (- d)) as Hnd.
  float_step (wl + Qred (- d)) r1 E1 H1.
  float_step (r1 + 1) r2 E2 H2.
  assert (Hh : r2 / 2 == r2 * (1 # 2)) by field.
  assert (Hx : (wl - d + 1) / 2 == (wl - d + 1) * (1 # 2)) by field.
  revert Hh Hx. generalize ((wl - d + 1) / 2).
  remember (r2 / 2) as h eqn:Eh. intros x Hh Hx.
  float_step h w Ew Hw.
  float_step (1 + Qred (- d)) r3 E3 H3.
  pose proof (Qred_correct (- w)) as Hnw.
  float_step (r3 + Qred (- w)) l El Hl.
  float_step (w + d) r4 E4 H4.
  float_step (r4 + l) s Es Hs.
  exists w, l, s.
  unfold derive_w, derive_l, fsub, fadd, fneg, fdiv, one, two.
  change (is_zero (Fin 2)) with false. cbv iota. unfold fdiv_nz.
  rewrite E1, E2, <- Eh, Ew, E3, El, E4, Es.
  unfold eps, tol in *.
  repeat split; apply Qabs_Qle_condition; lra.
Qed.

(** The rational model of binary64 arithmetic computes, on the samples, what
    the primitive floats of Rocq compute. *)
Lemma model_agrees_with_machine_floats : forallb agree samples = true.
Proof. vm_compute. reflexivity. Qed.

Lemma derivation_sums_to_one_witness :
  exists w l s : Q,
    derive_w (Fin (3602879701896397 # 18014398509481984))
             (Fin (5404319552844595 # 18014398509481984)) = Ok (Fin w) /\
    derive_l (Fin (5404319552844595 # 18014398509481984)) (Fin w) = Fin l /\
    fadd (fadd (Fin w) (Fin (5404319552844595 # 18014398509481984))) (Fin l)
      = Fin s /\
    Qabs (w - ((3602879701896397 # 18014398509481984)
               - (5404319552844595 # 18014398509481984) + 1) / 2) <= tol /\
    Qabs (l - (1 - (5404319552844595 # 18014398509481984) - w)) <= tol /\
    Qabs (w + (5404319552844595 # 18014398509481984) + l - 1) <= tol /\
    Qabs (s - 1) <= tol.
Proof.
  apply (derivation_sums_to_one (3602879701896397 # 18014398509481984)
           (5404319552844595 # 18014398509481984));
    split; unfold Qle; simpl; lia.
Defined.

End FloatFacts.
(** ** The regular expressions *)

Module ReFacts.

Import Re.

Local Arguments String.append : simpl nomatch.

Lemma append_assoc (a b c : string) :
  ((a ++ b) ++ c = a ++ (b ++ c))%string.
Proof. induction a as [|x a IH]; simpl; [reflexivity | now rewrite IH]. Qed.

Lemma length_append (a b : string) :
  String.length (a ++ b) = (String.length a + String.length b)%nat.
Proof. induction a as [|x a IH]; simpl; [reflexivity | now rewrite IH]. Qed.

Lemma span_spec p s a b :
  span p s = (a, b) ->
  s = (a ++ b)%string /\ all_chars p a = true /\
  match b with
  | EmptyString => True
  | String c _ => p c = false
  end.
Proof.
  revert a b. induction s as [|c s IH]; simpl; intros a b.
  - intros [= <- <-]. auto.
  - destruct (p c) eqn:E.
    + destruct (span p s) as [a' b'] eqn:Es. intros [= <- <-].
      destruct (IH a' b' eq_refl) as (-> & Ha & Hb).
      simpl. rewrite E, Ha. auto.
    + intros [= <- <-]. simpl. auto.
Qed.

Lemma span_app p a b :
  all_chars p a = true ->
  match b with
  | EmptyString => True
  | String c _ => p c = false
  end ->
  span p (a ++ b) = (a, b).
Proof.
  induction a as [|c a IH]; simpl; intros Ha Hb.
  - destruct b as [|c b]; simpl; [reflexivity | now rewrite Hb].
  - apply andb_prop in Ha as [Hc Ha]. now rewrite Hc, (IH Ha Hb).
Qed.

Lemma value_char_not_space c : is_value_char c = true -> is_space c = false.
Proof. destruct c as [[] [] [] [] [] [] [] []]; vm_compute; congruence. Qed.

(** The greedy matcher finds a match exactly when the pattern has one at
    the start of [s], and the match of the pattern is unique. *)
Lemma match_group_iff s key value rest :
  match_group s = Some (key, value, rest) <-> matches_group s key value rest.
Proof.
  split.
  - unfold match_group.
    destruct s as [|c s1]; [discriminate|].
    destruct (Ascii.eqb_spec c "("%char) as [->|Hc].
    2:{ destruct c as [[] [] [] [] [] [] [] []]; try discriminate.
        now destruct Hc. }
    destruct (span is_word s1) as [k s2] eqn:E1.
    destruct k as [|k0 k]; [discriminate|].
    destruct s2 as [|c2 s3]; [discriminate|].
    destruct (Ascii.eqb_spec c2 ":"%char) as [->|Hc].
    2:{ destruct c2 as [[] [] [] [] [] [] [] []]; try discriminate.
        now destruct Hc. }
    destruct (span is_space s3) as [ws s4] eqn:E2.
    destruct (span is_value_char s4) as [v s5] eqn:E3.
    destruct s5 as [|c5 r]; [discriminate|].
    destruct (Ascii.eqb_spec c5 ")"%char) as [->|Hc].
    2:{ destruct c5 as [[] [] [] [] [] [] [] []]; try discriminate.
        now destruct Hc. }
    intros [= <- <- <-].
    apply span_spec in E1 as (-> & H1 & _).
    apply span_spec in E2 as (-> & H2 & _).
    apply span_spec in E3 as (-> & H3 & _).
    exists ws. repeat split; auto.
  - intros (ws & -> & Hk & H1 & H2 & H3).
    destruct key as [|k0 k]; [now destruct Hk|].
    change ("(" ++ String k0 k ++ ":" ++ ws ++ value ++ ")" ++ rest)%string
      with (String "(" (String k0 k ++ String ":" (ws ++ value ++ String ")" rest))).
    unfold match_group. cbv beta iota.
    rewrite (span_app is_word (String k0 k)) by (auto; reflexivity).
    assert (Hv : span is_value_char (value ++ String ")" rest)
                 = (value, String ")" rest))
      by (apply span_app; [exact H3 | reflexivity]).
    rewrite (span_app is_space ws).
    + now rewrite Hv.
    + exact H2.
    + destruct value as [|v0 v]; simpl; [reflexivity|].
      simpl in H3. apply andb_prop in H3 as [H3 _].
      now apply value_char_not_space.
Qed.

Lemma findall_from_skip a : forall b,
  findall_from (String.length a) (a ++ b) = findall_from 0 b.
Proof.
  induction a as [|c a IH]; simpl; intros b; [|apply IH].
  destruct b; reflexivity.
Qed.

Lemma findall_from_0 c s' :
  findall_from 0 (String c s') =
  match match_group (String c s') with
  | Some (key, value, rest) =>
      (key, value)
        :: findall_from (String.length s' - String.length rest) s'
  | None => findall_from 0 s'
  end.
Proof. reflexivity. Qed.

(** [re.findall] resumes behind a match and otherwise one character
    further. *)
Lemma findall_groups_unfold s :
  findall_groups s =
  match match_group s, s with
  | Some (key, value, rest), _ => (key, value) :: findall_groups rest
  | None, String _ s' => findall_groups s'
  | None, EmptyString => []
  end.
Proof.
  unfold findall_groups.
  destruct (match_group s) as [[[key value] rest]|] eqn:E.
  - destruct (proj1 (match_group_iff _ _ _ _) E) as (ws & Hs & _).
    destruct s as [|c s']; [discriminate|].
    rewrite findall_from_0, E. f_equal.
    injection Hs as _ ->.
    set (pre := (key ++ ":" ++ ws ++ value ++ ")")%string).
    assert (Hpre : (key ++ String ":" (ws ++ value ++ String ")" rest))%string
                   = (pre ++ rest)%string)
      by (unfold pre; rewrite !append_assoc; reflexivity).
    rewrite Hpre, length_append.
    replace (String.length pre + String.length rest - String.length rest)%nat
      with (String.length pre) by lia.
    apply findall_from_skip.
  - destruct s as [|c s']; [reflexivity|]. now rewrite findall_from_0, E.
Qed.

(** Every second group that [re.findall] returns is a string over the
    alphabet of the value class, the strings [Dec.parse] is defined for. *)
Lemma findall_from_alphabet s : forall skip key value,
  In (key, value) (findall_from skip s) ->
  key <> ""%string /\ all_chars is_word key = true /\
  all_chars is_value_char value = true.
Proof.
  induction s as [|c s IH]; intros skip key value; [intros []|].
  destruct skip as [|k].
  - rewrite findall_from_0.
    destruct (match_group (String c s)) as [[[k0 v0] rest]|] eqn:E;
      [|apply IH].
    intros [[= <- <-]|Hin]; [|eapply IH; eauto].
    apply match_group_iff in E as (ws & _ & Hk & H1 & _ & H3). auto.
  - change (findall_from (S k) (String c s)) with (findall_from k s).
    apply IH.
Qed.

End ReFacts.

(** ** Decimal numbers *)

(** [Dec.ndigits] counts the decimal digits of a coefficient. *)
Lemma ndigits_aux_spec fuel : forall n,
  0 < n -> Z.log2 n <= Z.of_nat fuel ->
  10 ^ (Dec.ndigits_aux fuel n - 1) <= n < 10 ^ Dec.ndigits_aux fuel n.
Proof.
  induction fuel as [|f IH]; intros n Hn Hl.
  - simpl. assert (n = 1).
    { destruct (Z.eq_dec n 1) as [|Hne]; [assumption|].
      assert (1 <= Z.log2 n) by (apply Z.log2_le_pow2; lia). lia. }
    subst. simpl. lia.
  - cbn [Dec.ndigits_aux]. destruct (Z.ltb_spec n 10) as [Hlt|Hge].
    + simpl. lia.
    + assert (Hq : 0 < n / 10) by (apply Z.div_str_pos; lia).
      assert (Hl' : Z.log2 (n / 10) <= Z.of_nat f).
      { assert (n / 10 <= n / 2).
        { apply Z.div_le_compat_l; lia. }
        assert (Z.log2 (n / 2) = Z.log2 n - 1).
        { rewrite <- Z.shiftr_div_pow2 with (n := 1) by lia.
          rewrite Z.log2_shiftr by lia. 
          assert (1 <= Z.log2 n) by (apply Z.log2_le_pow2; lia). lia. }
        assert (Z.log2 (n / 10) <= Z.log2 (n / 2)) by (apply Z.log2_le_mono; lia).
        lia. }
      destruct (IH (n / 10) Hq Hl') as [Hlo Hhi].
      set (k := Dec.ndigits_aux f (n / 10)) in *.
      assert (Hk : 1 <= k).
      { destruct (Z.le_gt_cases 1 k) as [|Hk0]; [assumption|].
        assert (10 ^ k <= 10 ^ 0) by (apply Z.pow_le_mono_r; lia).
        simpl in *. lia. }
      replace (1 + k - 1) with (1 + (k - 1)) by lia.
      rewrite !Z.pow_add_r by lia. change (10 ^ 1) with 10.
      pose proof (Z.div_mod n 10 ltac:(lia)).
      pose proof (Z.mod_pos_bound n 10 ltac:(lia)).
      split; nia.
Qed.

Lemma ndigits_spec n :
  0 < n -> 10 ^ (Dec.ndigits n - 1) <= n < 10 ^ Dec.ndigits n.
Proof.
  intros Hn. unfold Dec.ndigits. apply ndigits_aux_spec; [exact Hn|].
  rewrite Z2Nat.id; [lia | apply Z.log2_nonneg].
Qed.

(** ** The line parser *)

(** C2: the line parser returns, for the literal line of the specification,
    the move [e2e4] and the mapping with exactly the five entries P, Q, D,
    WL and M, each the binary64 number nearest to 0.1234, 0.15, 0.2, 0.1
    and 34.  The percentage is divided by 100 in decimal arithmetic, which
    gives the decimal 0.1234 exactly, before the conversion to binary64. *)
Theorem parse_example_line :
  parse_info_line
    "e2e4 (P: 12.34%) (Q: 0.1500) (D: 0.2000) (WL: 0.10) (M: 34.0)"
  = Ok ("e2e4",
        {[ "P" := to_float (1234 # 10000);
           "Q" := to_float (15 # 100);
           "D" := to_float (2 # 10);
           "WL" := to_float (1 # 10);
           "M" := to_float 34 ]})
  /\ Dec.div100 <$> Dec.parse "12.34" = Some (Dec.mk_decimal false 1234 (-4))
  /\ to_float (1234 # 10000) = Fin (8891907104280307 # 72057594037927936).
Proof. vm_compute. repeat split. Qed.

Lemma findall_move_no_move_start s : no_move_start s -> Re.findall_move s = [].
Proof.
  destruct s as [|c s]; simpl; intros H; [reflexivity|].
  unfold Re.findall_move. simpl. now rewrite H.
Qed.

Lemma span_fst_nonempty p s c a :
  fst (Re.span p s) = String c a -> exists s', s = String c s' /\ p c = true.
Proof.
  destruct s as [|c' s']; simpl; [discriminate|].
  destruct (p c') eqn:E.
  - destruct (Re.span p s'). simpl. intros [= -> _]. eauto.
  - discriminate.
Qed.

(** C10: a line that is empty or whose first character is not in [0-9a-z]
    makes the parser raise, whatever statistic groups it contains; and when
    the parser returns, the move token is not empty and the line begins with
    a character of [0-9a-z]. *)
Theorem parse_needs_move_token s :
  (no_move_start s -> exists e, parse_info_line s = Raise e) /\
  (forall move values, parse_info_line s = Ok (move, values) ->
     move <> "" /\ exists c rest, s = String c rest /\ Re.is_move_char c = true).
Proof.
  unfold parse_info_line. split.
  - intros H. rewrite (findall_move_no_move_start s H).
    destruct (parse_groups _ _); simpl; eauto.
  - intros move values.
    destruct (parse_groups _ _) as [vals|]; simpl; [|discriminate].
    unfold Re.findall_move.
    destruct (fst (Re.span Re.is_move_char s)) as [|c a] eqn:E; [discriminate|].
    intros [= <- _]. split; [discriminate|].
    apply span_fst_nonempty in E as (s' & -> & Hc). eauto.
Qed.

Lemma parse_needs_move_token_witness :
  (exists e, parse_info_line "(Q: 0.5)" = Raise e) /\
  "e2e4" <> "".
Proof.
  split.
  - apply (proj1 (parse_needs_move_token "(Q: 0.5)")). reflexivity.
  - apply (proj2 (parse_needs_move_token "e2e4 (Q: 0.5)") "e2e4"
             {[ "Q" := to_float (1 # 2) ]}).
    vm_compute. reflexivity.
Defined.

Lemma parse_groups_lookup ms :
  forall m m', parse_groups ms m = Ok m' ->
  forall k, m' !! k = None <->
            (m !! k = None /\
             forall v, In (k, v) ms -> Re.contains "-.-" v = true).
Proof.
  induction ms as [|[key value] ms IH]; simpl; intros m m' H k.
  - injection H as <-. split; [intros Hk; split; [exact Hk | tauto] | tauto].
  - destruct (Re.contains "-.-" value) eqn:Es.
    + rewrite (IH _ _ H k). split; intros [Hm Hv]; split; auto.
      intros v [[= <- <-]|Hin]; auto.
    + destruct (stat_value key value) as [x|e]; simpl in H; [|discriminate].
      rewrite (IH _ _ H k). rewrite lookup_insert.
      destruct (decide (key = k)) as [->|Hne]; split.
      * intros [? _]. discriminate.
      * intros [_ Hv]. specialize (Hv value (or_introl eq_refl)). congruence.
      * intros [Hm Hv]. split; [exact Hm|].
        intros v [[= ? ?]|Hin]; [congruence | auto].
      * intros [Hm Hv]. split; auto.
Qed.

(** C3, as amended: when the parser returns a mapping, a code is absent from
    it exactly when every group of the line with that code has a value
    containing the sentinel.  A sentinel group therefore binds nothing (the
    key is absent, not bound to zero) unless another group of the same line
    binds the same code to a number. *)
Theorem sentinel_groups_bind_nothing s move values :
  parse_info_line s = Ok (move, values) ->
  forall key,
    values !! key = None <->
    (forall value, In (key, value) (Re.findall_groups s) ->
                   Re.contains "-.-" value = true).
Proof.
  unfold parse_info_line. intros H key.
  destruct (parse_groups (Re.findall_groups s) ∅) as [vals|] eqn:E;
    simpl in H; [|discriminate].
  destruct (Re.findall_move s); [discriminate|]. injection H as _ <-.
  rewrite (parse_groups_lookup _ _ _ E key), lookup_empty. tauto.
Qed.

Lemma sentinel_groups_bind_nothing_witness :
  let line := "e2e4 (P: 5.23%) (WL: -.-----) (D: -.---) (M: -.-)" in
  exists values,
    parse_info_line line = Ok ("e2e4", values) /\
    In ("M", "-.-") (Re.findall_groups line) /\
    values !! "M" = None.
Proof.
  exists {[ "P" := to_float (523 # 10000) ]}.
  assert (H : parse_info_line
                "e2e4 (P: 5.23%) (WL: -.-----) (D: -.---) (M: -.-)"
              = Ok ("e2e4", {[ "P" := to_float (523 # 10000) ]}))
    by (vm_compute; reflexivity).
  split; [exact H|]. split; [vm_compute; tauto|].
  apply (proj2 (sentinel_groups_bind_nothing _ _ _ H "M")).
  vm_compute. intros value [[= <-]|[[=]|[[=]|[[= <-]|[]]]]]; reflexivity.
Defined.

(** C3, the claim as stated fails: the second group of this line has the
    sentinel as its value, and the mapping still has its key, bound by the
    first group. *)
Lemma sentinel_key_bound_by_other_group :
  let line := "e2e4 (Q: 0.5) (Q: -.-)" in
  In ("Q", "-.-") (Re.findall_groups line) /\
  exists values,
    parse_info_line line = Ok ("e2e4", values) /\
    values !! "Q" = Some (Fin (1 # 2)).
Proof.
  split; [vm_compute; tauto|].
  exists {[ "Q" := Fin (1 # 2) ]}. split; vm_compute; reflexivity.
Qed.

(** ** The two-pass driver *)

Lemma add_all_spec rows w :
  add_all rows w =
  (Ok tt, mk_world (running w) (launched w) (events w) (pending w ++ rows)
                   (table w) (files w)).
Proof.
  revert w. induction rows as [|r rows IH]; intros w; simpl.
  - unfold ret. rewrite app_nil_r. now destruct w.
  - unfold bind, session_add. rewrite IH. simpl. now rewrite <- app_assoc.
Qed.


(** *** The loops *)

Lemma for_lines_inv (step : Dict.t -> info -> result Dict.t)
    (P : Dict.t -> Prop) :
  (forall r line r', P r -> step r line = Ok r' -> P r') ->
  forall lines r r',
    P r -> for_lines step lines r = Ok r' ->
    P r' /\ forall line, In line lines ->
                         exists r0 r1, P r0 /\ step r0 line = Ok r1.
Proof.
  intros Hstep. induction lines as [|l lines IH]; simpl; intros r r' HP H.
  - injection H as <-. split; [exact HP | intros ? []].
  - destruct (step r l) as [r1|e] eqn:E; simpl in H; [|discriminate].
    destruct (IH r1 r' (Hstep _ _ _ HP E) H) as [HP' Hall].
    split; [exact HP'|]. intros line [<-|Hin]; eauto.
Qed.

Lemma dict_get_keys k d : Dict.get k d = None <-> ~ In k (Dict.keys d).
Proof.
  induction d as [|[k' v] d IH]; simpl; [tauto|].
  destruct (String.eqb_spec k k') as [->|Hne].
  - split; [discriminate | intros H; exfalso; auto].
  - rewrite IH. split; [intros H [E|Hin]; [congruence | auto] | tauto].
Qed.

Lemma dict_set_keys k v d :
  In k (Dict.keys d) -> Dict.keys (Dict.set k v d) = Dict.keys d.
Proof.
  induction d as [|[k' v'] d IH]; simpl; [tauto|].
  destruct (String.eqb_spec k k') as [->|Hne]; simpl; [reflexivity|].
  intros [E|Hin]; [congruence|]. now rewrite IH.
Qed.

Lemma well_keyed_moves d :
  well_keyed d -> map Result.move (Dict.values d) = Dict.keys d.
Proof.
  unfold Dict.values, Dict.keys.
  induction 1 as [|[k v] d H _ IH]; simpl in *; [reflexivity|].
  now rewrite H, IH.
Qed.

Lemma dict_set_well_keyed k v d :
  Result.move v = k -> well_keyed d -> well_keyed (Dict.set k v d).
Proof.
  intros Hv. induction 1 as [|[k' v'] d H Hd IH]; simpl.
  - constructor; [exact Hv | constructor].
  - destruct (String.eqb k k'); constructor; auto.
Qed.

Lemma dict_get_well_keyed k d r :
  well_keyed d -> Dict.get k d = Some r -> Result.move r = k.
Proof.
  induction 1 as [|[k' v'] d H Hd IH]; simpl; [discriminate|].
  destruct (String.eqb_spec k k') as [->|Hne]; [|exact IH].
  now intros [= <-].
Qed.

Lemma setfield_ok results move f r' :
  (forall r, Result.move (f r) = Result.move r) ->
  setfield results move f = Ok r' ->
  Dict.keys r' = Dict.keys results /\ (well_keyed results -> well_keyed r').
Proof.
  intros Hf. unfold setfield, getrow.
  destruct (Dict.get move results) as [r|] eqn:E; simpl; [|discriminate].
  intros [= <-]. split.
  - apply dict_set_keys. destruct (in_dec string_dec move (Dict.keys results)) as [|n];
      [assumption|]. apply dict_get_keys in n. congruence.
  - intros Hw. apply dict_set_well_keyed; [|exact Hw].
    rewrite Hf. eapply dict_get_well_keyed; eauto.
Qed.

Ltac step_ok H :=
  match type of H with
  | rbind ?r _ = Ok _ =>
      let E := fresh "E" in
      destruct r eqn:E; simpl in H; [|discriminate]
  end.

Lemma pass2_step_ok results line r' :
  pass2_step results line = Ok r' ->
  Dict.keys r' = Dict.keys results /\ (well_keyed results -> well_keyed r').
Proof.
  unfold pass2_step. destruct (stat_line line) as [s|].
  2:{ intros [= <-]. tauto. }
  intros H. repeat step_ok H.
  repeat match goal with
  | E : setfield _ _ _ = Ok _ |- _ =>
      apply setfield_ok in E; [destruct E as [? ?] | reflexivity]
  end.
  split; [congruence | tauto].
Qed.

Lemma pass2_ok lines results r' :
  pass2 lines results = Ok r' ->
  Dict.keys r' = Dict.keys results /\ (well_keyed results -> well_keyed r').
Proof.
  unfold pass2. revert results.
  induction lines as [|l lines IH]; simpl; intros results H.
  - injection H as <-. tauto.
  - step_ok H. apply pass2_step_ok in E as [E1 E2].
    apply IH in H as [H1 H2]. split; [congruence | tauto].
Qed.

Lemma pass2_line_ok lines results r' line :
  pass2 lines results = Ok r' -> In line lines ->
  exists r0 r1, Dict.keys r0 = Dict.keys results /\ pass2_step r0 line = Ok r1.
Proof.
  intros H Hin.
  destruct (for_lines_inv pass2_step
              (fun r => Dict.keys r = Dict.keys results)) with
    (lines := lines) (r := results) (r' := r') as [_ Hall]; auto.
  intros r l r1 HP E. apply pass2_step_ok in E as [E _]. congruence.
Qed.

Lemma pass2_step_missing results line s move values :
  stat_line line = Some s -> parse_info_line s = Ok (move, values) ->
  values !! "D" = None \/ values !! "WL" = None ->
  pass2_step results line =
  Raise (KeyError (match values !! "D" with None => "D" | Some _ => "WL" end)).
Proof.
  intros Hs Hp H. unfold pass2_step. rewrite Hs, Hp. simpl. unfold getitem.
  destruct (values !! "D"); simpl; [|reflexivity].
  destruct H as [H|H]; [discriminate|]. now rewrite H.
Qed.

Lemma pass2_step_unknown_move results line s move values d wl q :
  stat_line line = Some s -> parse_info_line s = Ok (move, values) ->
  values !! "D" = Some d -> values !! "WL" = Some wl ->
  values !! "Q" = Some q -> Dict.get move results = None ->
  pass2_step results line = Raise (KeyError move).
Proof.
  intros Hs Hp Hd Hwl Hq Hm. unfold pass2_step. rewrite Hs, Hp. simpl.
  unfold getitem. rewrite Hd, Hwl, Hq. simpl.
  unfold setfield, getrow. now rewrite Hm.
Qed.

Lemma pass2_step_absent_raises results line s move values :
  stat_line line = Some s -> parse_info_line s = Ok (move, values) ->
  Dict.get move results = None ->
  exists e, pass2_step results line = Raise e.
Proof.
  intros Hs Hp Hm. unfold pass2_step. rewrite Hs, Hp. simpl.
  destruct (getitem values "D"); simpl; eauto.
  destruct (getitem values "WL"); simpl; eauto.
  destruct (getitem values "Q"); simpl; eauto.
  unfold setfield at 1, getrow. rewrite Hm. simpl. eauto.
Qed.

Lemma pass1_step_ok position network setting_hash results line r' :
  pass1_step position network setting_hash results line = Ok r' ->
  well_keyed results -> well_keyed r'.
Proof.
  unfold pass1_step. destruct (stat_line line); [|now intros [= <-]].
  intros H. do 2 step_ok H. injection H as <-.
  now apply dict_set_well_keyed.
Qed.

Lemma pass1_well_keyed position network setting_hash lines r' :
  pass1 position network setting_hash lines = Ok r' -> well_keyed r'.
Proof.
  intros H.
  apply (for_lines_inv (pass1_step position network setting_hash) well_keyed)
    in H as [H _]; [exact H | | constructor].
  intros r l r1 HP E. eapply pass1_step_ok; eauto.
Qed.

Section DriverFacts.

Context {Board : Type} (chess_Board : Board)
  (chess_Board_fen : string -> result Board)
  (push_san : Board -> string -> result Board)
  (lc0 : gmap string setting -> Board -> Z -> list info).
Context (position network : string) (settings : gmap string setting)
  (setting_hash : string) (is_fen : bool).

Abbreviation run :=
  (run_lc0_on_position Board chess_Board chess_Board_fen push_san lc0
     position network settings setting_hash is_fen).
Abbreviation resolve :=
  (resolve_position Board chess_Board chess_Board_fen push_san position is_fen).
Abbreviation o1 := (policy_options network).
Abbreviation o2 := (match_options settings network).
Abbreviation p1 board := (pass1 position network setting_hash (lc0 o1 board 1)).
Abbreviation p2 board := (pass2 (lc0 o2 board 800)).

Abbreviation w1 w := (in_pass1 network w).
Abbreviation w2 w := (in_pass2 network settings w).
Abbreviation w3 rows w := (before_commit network settings rows w).

Lemma run_cases w :
  match resolve with
  | Raise e => run w = (Raise e, w)
  | Ok board =>
      match p1 board with
      | Raise e => run w = (Raise e, w1 w)
      | Ok r1 =>
          match p2 board r1 with
          | Raise e => run w = (Raise e, w2 w)
          | Ok r2 => run w = session_commit (w3 (Dict.values r2) w)
          end
      end
  end.
Proof.
  unfold run_lc0_on_position, bind, lift.
  destruct resolve as [board|e]; [|reflexivity].
  cbn [popen_uci configure].
  destruct (p1 board) as [r1|e]; [|reflexivity].
  cbn [quit popen_uci configure running launched events pending table files].
  destruct (p2 board r1) as [r2|e]; [|reflexivity].
  rewrite add_all_spec. reflexivity.
Qed.


Lemma run_raise_table w e :
  fst (run w) = Raise e -> table (snd (run w)) = table w.
Proof.
  pose proof (run_cases w) as H.
  destruct resolve as [board|e0]; [|now rewrite H].
  destruct (p1 board) as [r1|e1]; [|now rewrite H].
  destruct (p2 board r1) as [r2|e2]; [|now rewrite H].
  rewrite H. unfold session_commit.
  destruct (pk_unique _); [discriminate | reflexivity].
Qed.

Lemma run_ok_inv w :
  fst (run w) = Ok tt ->
  exists board r1 r2,
    resolve = Ok board /\ p1 board = Ok r1 /\ p2 board r1 = Ok r2 /\
    table (snd (run w)) = table w ++ pending w ++ Dict.values r2 /\
    pending (snd (run w)) = [].
Proof.
  pose proof (run_cases w) as H.
  destruct resolve as [board|e0] eqn:Eb; [|now rewrite H].
  destruct (p1 board) as [r1|e1] eqn:E1; [|now rewrite H].
  destruct (p2 board r1) as [r2|e2] eqn:E2; [|now rewrite H].
  rewrite H. unfold session_commit.
  destruct (pk_unique _); [|discriminate].
  intros _. exists board, r1, r2. simpl. auto.
Qed.

(** C7: a run that raises leaves table results as it was; a run that
    returns has committed, in one step, every row that was pending together
    with all the rows of the dictionary the two passes produced, and leaves
    nothing pending. *)
Theorem commit_is_atomic w :
  (forall e, fst (run w) = Raise e -> table (snd (run w)) = table w) /\
  (fst (run w) = Ok tt ->
   exists board r1 r2,
     resolve = Ok board /\ p1 board = Ok r1 /\ p2 board r1 = Ok r2 /\
     table (snd (run w)) = table w ++ pending w ++ Dict.values r2 /\
     pending (snd (run w)) = []).
Proof. split; [apply run_raise_table | apply run_ok_inv]. Qed.

(** C4, as amended: a second-pass line that passes the filter and whose
    mapping lacks D or WL makes the loop body raise [KeyError], for D when D
    is missing and for WL otherwise; W and L are not derived, the run ends
    with an exception and table results is unchanged. *)
Theorem missing_wl_or_d_raises w board r1 line s move values :
  resolve = Ok board -> p1 board = Ok r1 ->
  In line (lc0 o2 board 800) ->
  stat_line line = Some s -> parse_info_line s = Ok (move, values) ->
  values !! "D" = None \/ values !! "WL" = None ->
  (forall results,
     pass2_step results line =
     Raise (KeyError
              (match values !! "D" with None => "D" | Some _ => "WL" end))) /\
  exists e, fst (run w) = Raise e /\ table (snd (run w)) = table w.
Proof.
  intros Hr H1 Hin Hs Hp Hm.
  assert (Hstep := fun results =>
            pass2_step_missing results line s move values Hs Hp Hm).
  split; [exact Hstep|].
  pose proof (run_cases w) as H. rewrite Hr, H1 in H.
  destruct (p2 board r1) as [r2|e2] eqn:E2.
  - destruct (pass2_line_ok _ _ _ _ E2 Hin) as (r0 & r' & _ & E).
    rewrite Hstep in E. discriminate.
  - exists e2. now rewrite H.
Qed.

(** C5, as amended: a second-pass line whose move is not a key of the
    dictionary is not dropped: once D, WL and Q have been read, the lookup
    [results[move]] raises [KeyError].  Such a line among those of the second
    pass makes the run end with an exception and commit nothing.  And when
    the run returns, the second pass has kept the keys of the dictionary of
    the first pass, and the committed rows carry exactly those moves, in the
    order of the first pass. *)
Theorem pass2_keeps_the_pass1_moves w board r1 :
  resolve = Ok board -> p1 board = Ok r1 ->
  (forall results line s move values d wl q,
     stat_line line = Some s -> parse_info_line s = Ok (move, values) ->
     values !! "D" = Some d -> values !! "WL" = Some wl ->
     values !! "Q" = Some q -> Dict.get move results = None ->
     pass2_step results line = Raise (KeyError move)) /\
  (forall line s move values,
     In line (lc0 o2 board 800) ->
     stat_line line = Some s -> parse_info_line s = Ok (move, values) ->
     ~ In move (Dict.keys r1) ->
     exists e, fst (run w) = Raise e /\ table (snd (run w)) = table w) /\
  (fst (run w) = Ok tt ->
   exists r2,
     p2 board r1 = Ok r2 /\
     Dict.keys r2 = Dict.keys r1 /\
     map Result.move (Dict.values r2) = Dict.keys r1 /\
     table (snd (run w)) = table w ++ pending w ++ Dict.values r2).
Proof.
  intros Hr H1. split; [|split].
  - intros results line s move values d wl q.
    apply pass2_step_unknown_move.
  - intros line s move values Hin Hs Hp Hm.
    pose proof (run_cases w) as H. rewrite Hr, H1 in H.
    destruct (p2 board r1) as [r2|e2] eqn:E2.
    + destruct (pass2_line_ok _ _ _ _ E2 Hin) as (r0 & r' & Hk & E).
      rewrite <- Hk in Hm. apply dict_get_keys in Hm.
      destruct (pass2_step_absent_raises r0 line s move values Hs Hp Hm)
        as [e He]. congruence.
    + exists e2. now rewrite H.
  - intros Hok. destruct (run_ok_inv w Hok) as (b & r1' & r2 & Eb & E1 & E2 & Ht & _).
    rewrite Hr in Eb. injection Eb as <-. rewrite H1 in E1. injection E1 as <-.
    exists r2. destruct (pass2_ok _ _ _ E2) as [Hk Hw].
    repeat split; auto.
    rewrite <- Hk. apply well_keyed_moves, Hw.
    eapply pass1_well_keyed; eauto.
Qed.

Lemma filter_not_pid (n : nat) (l : list nat) :
  Forall (fun p => (p < n)%nat) l -> List.filter (not_pid n) l = l.
Proof.
  induction 1 as [|p l Hp _ IH]; simpl; [reflexivity|].
  unfold not_pid at 1. destruct (Nat.eqb_spec p n); [lia|]. simpl. now rewrite IH.
Qed.

Lemma filter_not_pid_cons (n : nat) (l : list nat) :
  Forall (fun p => (p < n)%nat) l -> List.filter (not_pid n) (n :: l) = l.
Proof.
  intros H. simpl. unfold not_pid at 1. rewrite Nat.eqb_refl. simpl.
  now apply filter_not_pid.
Qed.

(** C6, as amended: an engine is shut down by one [quit] call when the loop
    of its pass completes.  When the first loop raises, the run ends with
    the first engine running and no [quit] called; when the second loop
    raises, the first engine has been quit and the second is running; when
    both loops complete, each engine has been quit and the processes running
    are those of before. *)
Theorem quit_follows_a_completed_pass w board :
  Forall (fun p => (p < launched w)%nat) (running w) ->
  resolve = Ok board ->
  let n := launched w in
  (forall e, p1 board = Raise e ->
     run w = (Raise e, w1 w) /\
     running (w1 w) = n :: running w /\
     events (w1 w) = events w ++ [Popen n; Configure n o1]) /\
  (forall r1 e, p1 board = Ok r1 -> p2 board r1 = Raise e ->
     run w = (Raise e, w2 w) /\
     running (w2 w) = S n :: running w /\
     events (w2 w) =
       events w ++ [Popen n; Configure n o1; Quit n;
                    Popen (S n); Configure (S n) o2]) /\
  (forall r1 r2, p1 board = Ok r1 -> p2 board r1 = Ok r2 ->
     running (snd (run w)) = running w /\
     events (snd (run w)) =
       events w ++ [Popen n; Configure n o1; Quit n;
                    Popen (S n); Configure (S n) o2; Quit (S n)]).
Proof.
  intros Hfresh Hr n.
  pose proof (run_cases w) as H. rewrite Hr in H.
  assert (Hf1 : List.filter (not_pid n) (n :: running w) = running w)
    by now apply filter_not_pid_cons.
  assert (Hf2 : List.filter (not_pid (S n)) (S n :: running w) = running w).
  { apply filter_not_pid_cons. eapply Forall_impl; [exact Hfresh|].
    simpl. intros. lia. }
  split; [|split].
  - intros e E1. rewrite E1 in H. split; [exact H|].
    split; [reflexivity|]. simpl. now rewrite <- app_assoc.
  - intros r1 e E1 E2. rewrite E1, E2 in H. split; [exact H|].
    unfold in_pass2. cbn [running events launched in_pass1].
    fold n. rewrite Hf1. split; [reflexivity|].
    now rewrite <- !app_assoc.
  - intros r1 r2 E1 E2. rewrite E1, E2 in H. rewrite H.
    unfold session_commit.
    assert (running (w3 (Dict.values r2) w) = running w
            /\ events (w3 (Dict.values r2) w) =
               events w ++ [Popen n; Configure n o1; Quit n;
                            Popen (S n); Configure (S n) o2; Quit (S n)])
      as [Ha Hb].
    { unfold before_commit, in_pass2. cbn [running events launched in_pass1].
      fold n. rewrite Hf1, Hf2. split; [reflexivity|].
      now rewrite <- !app_assoc. }
    destruct (pk_unique _); simpl; auto.
Qed.

(** C8: the empty position string resolves to the starting position, and a
    position string of one space resolves to what the empty string
    resolves to, for either position type. *)
Theorem blank_position_is_start (fen : bool) :
  resolve_position Board chess_Board chess_Board_fen push_san "" fen
    = Ok chess_Board /\
  resolve_position Board chess_Board chess_Board_fen push_san " " fen
    = resolve_position Board chess_Board chess_Board_fen push_san "" fen.
Proof. split; reflexivity. Qed.

End DriverFacts.

(** ** The job queue *)

Lemma ltb_lt a b : String.ltb a b = true <-> String_as_OT.lt a b.
Proof.
  unfold String.ltb. rewrite <- String_as_OT.cmp_lt.
  unfold String_as_OT.cmp. destruct (String.compare a b); split; congruence.
Qed.

Lemma ltb_irrefl a : String.ltb a a = false.
Proof.
  unfold String.ltb.
  pose proof (String.compare_antisym a a) as H.
  destruct (String.compare a a); simpl in H; congruence.
Qed.

Lemma ltb_trans a b c :
  String.ltb a b = true -> String.ltb b c = true -> String.ltb a c = true.
Proof. rewrite !ltb_lt. apply String_as_OT.lt_trans. Qed.

(** [a < c] and [c <= b] give [a < b]. *)
Lemma ltb_lt_le a b c :
  String.ltb a c = true -> String.ltb b c = false -> String.ltb a b = true.
Proof.
  intros Hac Hbc.
  pose proof (String.compare_antisym a b) as Ha.
  destruct (String.compare b a) eqn:Ec; simpl in Ha.
  - apply String.compare_eq_iff in Ec. subst. congruence.
  - assert (Hba : String.ltb b a = true) by (unfold String.ltb; now rewrite Ec).
    rewrite (ltb_trans _ _ _ Hba Hac) in Hbc. discriminate.
  - unfold String.ltb. now rewrite Ha.
Qed.

Lemma first_desc_spec rows : forall best,
  (first_desc best rows = best \/ In (first_desc best rows) rows) /\
  network_ltb (first_desc best rows) best = false /\
  forall j', In j' rows -> network_ltb (first_desc best rows) j' = false.
Proof.
  induction rows as [|r rows IH]; simpl; intros best.
  - split; [auto|]. split; [apply ltb_irrefl | intros ? []].
  - destruct (network_ltb best r) eqn:E; unfold network_ltb in *.
    + destruct (IH r) as (Hin & Hb & Hall). split; [|split].
      * destruct Hin as [Hin|Hin]; [right; left; now rewrite Hin | auto].
      * destruct (String.ltb (Job.network (first_desc r rows))
                    (Job.network best)) eqn:E'; [|reflexivity].
        rewrite (ltb_trans _ _ _ E' E) in Hb. discriminate.
      * intros j' [<-|Hj]; auto.
    + destruct (IH best) as (Hin & Hb & Hall). split; [|split].
      * destruct Hin; auto.
      * exact Hb.
      * intros j' [<-|Hj]; [|auto].
        destruct (String.ltb (Job.network (first_desc best rows))
                    (Job.network r)) eqn:E'; [|reflexivity].
        rewrite (ltb_lt_le _ _ _ E' E) in Hb. discriminate.
Qed.

(** The query returns a waiting job that no waiting job exceeds, or none
    when no job is waiting. *)
Lemma first_job_selects (jobs : list Job.t) (table : list Result.t) :
  match first_job jobs table with
  | Some j =>
      In j jobs /\ has_results table j = false /\
      forall j', In j' jobs -> has_results table j' = false ->
                 String.ltb (Job.network j) (Job.network j') = false
  | None => forall j, In j jobs -> has_results table j = true
  end.
Proof.
  unfold first_job.
  set (waiting := List.filter (fun j => negb (has_results table j)) jobs).
  assert (Hw : forall j, In j waiting <->
                         In j jobs /\ has_results table j = false).
  { intros j. unfold waiting. rewrite filter_In.
    destruct (has_results table j); simpl; intuition congruence. }
  destruct waiting as [|j0 rest].
  - intros j Hj. destruct (has_results table j) eqn:E; [reflexivity|].
    destruct (proj2 (Hw j) (conj Hj E)).
  - destruct (first_desc_spec rest j0) as (Hin & Hb & Hall).
    assert (Hsel : In (first_desc j0 rest) (j0 :: rest))
      by (simpl; destruct Hin; auto).
    apply Hw in Hsel as [H1 H2]. split; [exact H1|]. split; [exact H2|].
    intros j' Hj' Hn. destruct (proj2 (Hw j') (conj Hj' Hn)) as [<-|Hr].
    + exact Hb.
    + exact (Hall j' Hr).
Qed.

Section MainFacts.

Context {Board : Type} (chess_Board : Board)
  (chess_Board_fen : string -> result Board)
  (push_san : Board -> string -> result Board)
  (lc0 : gmap string setting -> Board -> Z -> list info)
  (jobs : list Job.t) (networks_df : list (Z * string)).

Abbreviation loop fuel last :=
  (main_loop Board chess_Board chess_Board_fen push_san lc0 jobs networks_df
     fuel last).

(** C9, as amended: the job queue selects a job of table jobs that has no
    result row and whose network identifier no other such job exceeds in
    the order of the string column (character by character); a job with a
    result row is never selected.  When every job has a result row the query
    returns none, and the main loop leaves through [sys.exit(0)] without
    changing anything. *)
Theorem job_queue_order (last : option string) (w : world) :
  (forall j, first_job jobs (table w) = Some j ->
     In j jobs /\ has_results (table w) j = false /\
     forall j', In j' jobs -> has_results (table w) j' = false ->
                String.ltb (Job.network j) (Job.network j') = false) /\
  ((forall j, In j jobs -> has_results (table w) j = true) ->
     first_job jobs (table w) = None /\
     forall fuel, loop (S fuel) last w = (Raise (SystemExit 0), w)).
Proof.
  pose proof (first_job_selects jobs (table w)) as H. split.
  - intros j E. now rewrite E in H.
  - intros Hall.
    assert (E : first_job jobs (table w) = None).
    { destruct (first_job jobs (table w)) as [j|]; [|reflexivity].
      destruct H as (Hin & Hn & _). rewrite (Hall j Hin) in Hn. discriminate. }
    split; [exact E|]. intros fuel. simpl.
    unfold main_iteration, bind, get_world. now rewrite E.
Qed.

End MainFacts.

Lemma job_queue_order_witness :
  let jobs := [Bench.job 1 "42850"; Bench.job 2 "42851"] in
  let row := Result.mk "" "42851" "default" "e2e4" None None None None None
                       None in
  let done :=
    mk_world [] 0 [] [] [row; Result.mk "" "42850" "default" "e2e4" None None
                                None None None None] ∅ in
  (In (Bench.job 1 "42850") jobs /\
   has_results [row] (Bench.job 1 "42850") = false) /\
  (first_job jobs (table done) = None /\
   main_loop Bench.Board Bench.start Bench.of_fen Bench.push
     (Bench.scripted [] []) jobs [] 1 None done
   = (Raise (SystemExit 0), done)).
Proof.
  intros jobs row done. split.
  - pose proof (proj1 (job_queue_order Bench.start Bench.of_fen Bench.push
                         (Bench.scripted [] []) jobs [] None
                         (mk_world [] 0 [] [] [row] ∅))
                  (Bench.job 1 "42850") eq_refl) as (H1 & H2 & _).
    split; [exact H1 | exact H2].
  - destruct (proj2 (job_queue_order Bench.start Bench.of_fen Bench.push
                       (Bench.scripted [] []) jobs [] None done))
      as [H1 H2].
    + intros j [<-|[<-|[]]]; reflexivity.
    + split; [exact H1 | exact (H2 0%nat)].
Defined.

(** C9, the claim as stated fails: of two waiting jobs with the networks 9
    and 10 the queue selects the one with network 9, the greater string,
    although 10 is the greater number. *)
Lemma job_queue_is_not_numeric :
  first_job [Bench.job 1 "10"; Bench.job 2 "9"] [] = Some (Bench.job 2 "9") /\
  int_of_string "10" = Ok 10 /\ int_of_string "9" = Ok 9 /\ 9 < 10.
Proof. repeat split. Qed.

(** ** The claims about a run, on the scripted engine *)

Lemma missing_wl_or_d_raises_witness :
  (forall results,
     pass2_step results (Some Bench.d2d4_unvisited) = Raise (KeyError "D")) /\
  exists e,
    fst (Bench.run Bench.first_pass
           [Some Bench.e2e4_searched; Some Bench.d2d4_unvisited]) = Raise e /\
    table (snd (Bench.run Bench.first_pass
                  [Some Bench.e2e4_searched; Some Bench.d2d4_unvisited])) = [].
Proof.
  assert (H1 : pass1 "" "42850" "default" Bench.first_pass
               = Ok [("e2e4", new_row "" "42850" "default" "e2e4"
                                (to_float (6 # 10)));
                     ("d2d4", new_row "" "42850" "default" "d2d4"
                                (to_float (4 # 10)))])
    by (vm_compute; reflexivity).
  assert (Hp : parse_info_line Bench.d2d4_unvisited
               = Ok ("d2d4",
                     {[ "P" := to_float (4 # 10); "Q" := to_float (1 # 10) ]}))
    by (vm_compute; reflexivity).
  exact (missing_wl_or_d_raises Bench.start Bench.of_fen Bench.push
           (Bench.scripted Bench.first_pass
              [Some Bench.e2e4_searched; Some Bench.d2d4_unvisited])
           "" "42850" ∅ "default" true Bench.w0 Bench.start _
           (Some Bench.d2d4_unvisited) Bench.d2d4_unvisited "d2d4" _
           eq_refl H1 (or_intror (or_introl eq_refl)) eq_refl Hp
           (or_introl eq_refl)).
Defined.

(** C4, the claim as stated fails: a second-pass line whose WL, D and M are
    the sentinel makes the lookup of D raise [KeyError]; the run ends with
    that exception and commits nothing. *)
Lemma unvisited_move_fails_the_job :
  (exists values,
     parse_info_line Bench.d2d4_unvisited = Ok ("d2d4", values) /\
     values !! "D" = None /\ values !! "WL" = None) /\
  fst (Bench.run Bench.first_pass
         [Some Bench.e2e4_searched; Some Bench.d2d4_unvisited])
  = Raise (KeyError "D") /\
  table (snd (Bench.run Bench.first_pass
                [Some Bench.e2e4_searched; Some Bench.d2d4_unvisited])) = [].
Proof.
  split; [| split; vm_compute; reflexivity].
  exists {[ "P" := to_float (4 # 10); "Q" := to_float (1 # 10) ]}.
  repeat split; vm_compute; reflexivity.
Qed.

Lemma pass2_keeps_the_pass1_moves_witness :
  (exists e,
     fst (Bench.run Bench.first_pass
            [Some Bench.e2e4_searched; Some Bench.g1f3_searched]) = Raise e /\
     table (snd (Bench.run Bench.first_pass
                   [Some Bench.e2e4_searched; Some Bench.g1f3_searched])) = []) /\
  (exists r2,
     pass2 [Some Bench.e2e4_searched] 
       [("e2e4", new_row "" "42850" "default" "e2e4" (to_float (6 # 10)));
        ("d2d4", new_row "" "42850" "default" "d2d4" (to_float (4 # 10)))]
     = Ok r2 /\
     Dict.keys r2 = ["e2e4"; "d2d4"] /\
     map Result.move (Dict.values r2) = ["e2e4"; "d2d4"] /\
     table (snd (Bench.run Bench.first_pass [Some Bench.e2e4_searched]))
     = Dict.values r2).
Proof.
  split.
  - eapply (proj1 (proj2 (pass2_keeps_the_pass1_moves Bench.start Bench.of_fen
                     Bench.push
                     (Bench.scripted Bench.first_pass
                        [Some Bench.e2e4_searched; Some Bench.g1f3_searched])
                     "" "42850" ∅ "default" true Bench.w0 Bench.start
                     [("e2e4", new_row "" "42850" "default" "e2e4"
                                 (to_float (6 # 10)));
                      ("d2d4", new_row "" "42850" "default" "d2d4"
                                 (to_float (4 # 10)))]
                     eq_refl ltac:(vm_compute; reflexivity)))
              (Some Bench.g1f3_searched) Bench.g1f3_searched "g1f3"
              {[ "P" := to_float (5 # 100); "WL" := to_float (1 # 10);
                 "D" := to_float (4 # 10); "M" := to_float 40;
                 "Q" := to_float (1 # 10) ]}).
    + simpl. auto.
    + vm_compute. reflexivity.
    + vm_compute. reflexivity.
    + simpl. intros [H|[H|[]]]; discriminate.
  - apply (proj2 (proj2 (pass2_keeps_the_pass1_moves Bench.start Bench.of_fen
                    Bench.push
                    (Bench.scripted Bench.first_pass
                       [Some Bench.e2e4_searched])
                    "" "42850" ∅ "default" true Bench.w0 Bench.start
                    [("e2e4", new_row "" "42850" "default" "e2e4"
                                (to_float (6 # 10)));
                     ("d2d4", new_row "" "42850" "default" "d2d4"
                                (to_float (4 # 10)))]
                    eq_refl ltac:(vm_compute; reflexivity)))).
    vm_compute. reflexivity.
Defined.

(** C5, the claim as stated fails: a second-pass line for g1f3, a move the
    first pass did not report, is not dropped; the lookup [results[move]]
    raises [KeyError] and the run ends without committing. *)
Lemma unknown_move_fails_the_job :
  (exists r1,
     pass1 "" "42850" "default" Bench.first_pass = Ok r1 /\
     Dict.keys r1 = ["e2e4"; "d2d4"]) /\
  fst (Bench.run Bench.first_pass
         [Some Bench.e2e4_searched; Some Bench.g1f3_searched])
  = Raise (KeyError "g1f3") /\
  table (snd (Bench.run Bench.first_pass
                [Some Bench.e2e4_searched; Some Bench.g1f3_searched])) = [].
Proof.
  split; [| split; vm_compute; reflexivity].
  eexists. split; vm_compute; reflexivity.
Qed.

Lemma quit_follows_a_completed_pass_witness :
  (Bench.run [Some "Unexpected line"] []
   = (Raise IndexError, in_pass1 "42850" Bench.w0) /\
   running (in_pass1 "42850" Bench.w0) = [0%nat]) /\
  (running (snd (Bench.run Bench.first_pass [Some Bench.e2e4_searched])) = [] /\
   events (snd (Bench.run Bench.first_pass [Some Bench.e2e4_searched]))
   = [Popen 0; Configure 0 (policy_options "42850"); Quit 0;
      Popen 1; Configure 1 (match_options ∅ "42850"); Quit 1]).
Proof.
  split.
  - destruct (proj1 (quit_follows_a_completed_pass Bench.start Bench.of_fen
                       Bench.push (Bench.scripted [Some "Unexpected line"] [])
                       "" "42850" ∅ "default" true Bench.w0 Bench.start
                       (List.Forall_nil _) eq_refl)
                IndexError ltac:(vm_compute; reflexivity))
      as (H1 & H2 & _).
    split; [exact H1 | exact H2].
  - eapply (proj2 (proj2 (quit_follows_a_completed_pass Bench.start
                            Bench.of_fen Bench.push
                            (Bench.scripted Bench.first_pass
                               [Some Bench.e2e4_searched])
                            "" "42850" ∅ "default" true Bench.w0 Bench.start
                            (List.Forall_nil _) eq_refl))).
    + vm_compute. reflexivity.
    + vm_compute. reflexivity.
Defined.

(** C6, the claim as stated fails: when parsing a line of the first pass
    raises, control leaves the pass with the exception, the engine launched
    for the pass is still running and no [quit] was called on it. *)
Lemma engine_outlives_a_failed_pass :
  fst (Bench.run [Some "Unexpected line"] []) = Raise IndexError /\
  running (snd (Bench.run [Some "Unexpected line"] [])) = [0%nat] /\
  ~ In (Quit 0) (events (snd (Bench.run [Some "Unexpected line"] []))).
Proof.
  split; [vm_compute; reflexivity|]. split; [vm_compute; reflexivity|].
  vm_compute. intros [H|[H|[]]]; discriminate.
Qed.

Lemma commit_is_atomic_witness :
  table (snd (Bench.run Bench.first_pass
                [Some Bench.e2e4_searched; Some Bench.d2d4_unvisited])) = [] /\
  exists board r1 r2,
    resolve_position Bench.Board Bench.start Bench.of_fen Bench.push "" true
      = Ok board /\
    pass1 "" "42850" "default" Bench.first_pass = Ok r1 /\
    pass2 [Some Bench.e2e4_searched] r1 = Ok r2 /\
    table (snd (Bench.run Bench.first_pass [Some Bench.e2e4_searched]))
      = [] ++ [] ++ Dict.values r2 /\
    pending (snd (Bench.run Bench.first_pass [Some Bench.e2e4_searched])) = [].
Proof.
  split.
  - apply (proj1 (commit_is_atomic Bench.start Bench.of_fen Bench.push
                    (Bench.scripted Bench.first_pass
                       [Some Bench.e2e4_searched; Some Bench.d2d4_unvisited])
                    "" "42850" ∅ "default" true Bench.w0) (KeyError "D")).
    vm_compute. reflexivity.
  - apply (proj2 (commit_is_atomic Bench.start Bench.of_fen Bench.push
                    (Bench.scripted Bench.first_pass
                       [Some Bench.e2e4_searched])
                    "" "42850" ∅ "default" true Bench.w0)).
    vm_compute. reflexivity.
Defined.

(** ** Tests of the embedding against the behaviour of Python *)

(** [re.findall] on nested and incomplete groups. *)
Example findall_groups_example :
  Re.findall_groups
    "e2e4 (P: 12.34%) (WL: 0.10) (a:(b:1)) (V: -.----) ((X:) (Y 1) (:2)"
  = [("P", "12.34%"); ("WL", "0.10"); ("b", "1"); ("V", "-.----"); ("X", "")].
Proof. reflexivity. Qed.

(** The numerals [float()] and [Decimal()] accept and reject. *)
Example numerals_example :
  map (fun s => match Dec.parse s with Some d => Some (Dec.to_Q d) | None => None end)
      ["5."; ".5"; "-.5"; "00012"; "-0"; "."; "-"; ""; "--1"; "1-2"; "1.2.3";
       "12%"]
  = [Some (5 # 1); Some (5 # 10); Some (-5 # 10); Some (12 # 1); Some (0 # 1);
     None; None; None; None; None; None; None]%Q.
Proof. vm_compute. reflexivity. Qed.

(** A quotient of more than 28 digits is rounded to 28 digits. *)
Example decimal_context_example :
  Dec.div100 <$> Dec.parse "12.345678901234567890123456789012"
  = Some (Dec.mk_decimal false 1234567890123456789012345679 (-28)).
Proof. vm_compute. reflexivity. Qed.

(** A line as the engine prints it after one node. *)
Example unvisited_line_example :
  parse_info_line
    "e2e4  (322 ) N:       0 (+ 0) (P:  5.23%) (WL:  -.-----) (D: -.---) (M:  -.-) (Q:  0.04010) (V:  -.----)"
  = Ok ("e2e4", {[ "P" := to_float (523 # 10000);
                   "Q" := to_float (401 # 10000) ]}).
Proof. vm_compute. reflexivity. Qed.

(** Two moves in the first pass, one of them searched in the second: two rows
    are committed, the second with the policy only.  In binary64 arithmetic
    L is [0.24999999999999994], the number below [0.25]. *)
Example two_pass_example :
  Bench.run Bench.first_pass [Some Bench.e2e4_searched]
  = (Ok tt,
     mk_world [] 2
       [Popen 0; Configure 0 (policy_options "42850"); Quit 0;
        Popen 1; Configure 1 (match_options ∅ "42850"); Quit 1]
       []
       [Result.mk "" "42850" "default" "e2e4"
          (Some (to_float (2 # 10))) (Some (to_float (6 # 10)))
          (Some (to_float (45 # 100))) (Some (to_float (3 # 10)))
          (Some (Fin (4503599627370495 # 18014398509481984)))
          (Some (to_float (305 # 10)));
        Result.mk "" "42850" "default" "d2d4"
          None (Some (to_float (4 # 10))) None None None None]
       ∅).
Proof. vm_compute. reflexivity. Qed.

(** * Further properties of the code *)

(** ** Rounding depends on the value only *)

Module RoundFacts.
Import FloatFacts.
Local Open Scope Q_scope.

Lemma pow2_le a b : (a <= b)%Z -> pow2 a <= pow2 b.
Proof. intros H. unfold pow2. apply Qpower_le_compat_l; [exact H | discriminate]. Qed.

(** The exponent of the binade is determined by the value. *)
Lemma ilog2_unique x e :
  ~ x == 0 -> pow2 e <= Qabs x -> Qabs x < pow2 (e + 1) -> ilog2 x = e.
Proof.
  intros Hx Hlo Hhi.
  pose proof (ilog2_le x Hx) as Hlo'. pose proof (ilog2_lt x Hx) as Hhi'.
  destruct (Z.lt_trichotomy (ilog2 x) e) as [Hlt|[Heq|Hgt]]; [|exact Heq|].
  - pose proof (pow2_le (ilog2 x + 1) e ltac:(lia)). lra.
  - pose proof (pow2_le (e + 1) (ilog2 x) ltac:(lia)). lra.
Qed.

Lemma ilog2_comp x y : x == y -> ~ x == 0 -> ilog2 x = ilog2 y.
Proof.
  intros E Hx. symmetry. apply ilog2_unique.
  - now rewrite <- E.
  - rewrite <- E. now apply ilog2_le.
  - rewrite <- E. now apply ilog2_lt.
Qed.

Lemma round_half_even_comp x y : x == y -> round_half_even x = round_half_even y.
Proof.
  intros E. unfold round_half_even.
  rewrite (Qfloor_comp _ _ E).
  assert (Hc : Qcompare (x - inject_Z (Qfloor y)) (1 # 2)
               = Qcompare (y - inject_Z (Qfloor y)) (1 # 2))
    by now rewrite E.
  now rewrite Hc.
Qed.

(** Rounding depends on the value only, not on the fraction that
    represents it. *)
Lemma b64_round_comp x y : x == y -> b64_round x = b64_round y.
Proof.
  intros E. unfold b64_round.
  destruct (Qeq_bool x 0) eqn:Ex.
  - apply Qeq_bool_iff in Ex. rewrite E in Ex. apply Qeq_bool_iff in Ex.
    now rewrite Ex.
  - assert (Ey : Qeq_bool y 0 = false).
    { destruct (Qeq_bool y 0) eqn:Ey; [|reflexivity].
      apply Qeq_bool_iff in Ey. rewrite <- E in Ey.
      apply Qeq_bool_iff in Ey. congruence. }
    rewrite Ey. apply Qeq_bool_neq in Ex.
    unfold ulp_exp. rewrite <- (ilog2_comp x y E Ex).
    set (q := Z.max (ilog2 x - (prec - 1)) emin).
    apply Qred_complete.
    rewrite (round_half_even_comp (x / pow2 q) (y / pow2 q)); [reflexivity|].
    now rewrite E.
Qed.

Lemma to_float_comp x y : x == y -> to_float x = to_float y.
Proof. intros E. unfold to_float. now rewrite (b64_round_comp x y E). Qed.

End RoundFacts.

(** ** More on the line parser *)

Module ParserFacts.

Import Re.

(** X1: the move token that the parser returns is the longest prefix of the
    line made of characters of [0-9a-z]: the line is the token followed by a
    rest that is empty or begins with another character. *)
Theorem move_is_longest_prefix s move values :
  parse_info_line s = Ok (move, values) ->
  exists rest,
    s = (move ++ rest)%string /\
    Re.all_chars Re.is_move_char move = true /\
    no_move_start rest.
Proof.
  unfold parse_info_line.
  destruct (parse_groups _ _) as [vals|]; simpl; [|discriminate].
  unfold Re.findall_move.
  destruct (Re.span Re.is_move_char s) as [a b] eqn:E. simpl.
  destruct a as [|c a]; [discriminate|]. intros [= <- _].
  apply ReFacts.span_spec in E as (-> & Ha & Hb).
  exists b. repeat split; auto.
Qed.

Lemma move_is_longest_prefix_witness :
  exists rest,
    "e2e4q  (P: 5.23%)" = ("e2e4q" ++ rest)%string /\
    all_chars is_move_char "e2e4q" = true /\ no_move_start rest.
Proof.
  apply (move_is_longest_prefix "e2e4q  (P: 5.23%)" "e2e4q"
           {[ "P" := to_float (523 # 10000) ]}).
  vm_compute. reflexivity.
Defined.

Lemma parse_groups_ok_iff ms : forall m,
  (exists m', parse_groups ms m = Ok m') <->
  (forall k v, In (k, v) ms -> Re.contains "-.-" v = false ->
               exists x, stat_value k v = Ok x).
Proof.
  induction ms as [|[key value] ms IH]; simpl; intros m.
  - split; [intros _ ? ? [] | eauto].
  - destruct (Re.contains "-.-" value) eqn:Es.
    + rewrite IH. split.
      * intros H k v [[= <- <-]|Hin] Hc; [congruence | eauto].
      * eauto.
    + destruct (stat_value key value) as [x|e] eqn:Ev; simpl.
      * rewrite IH. split.
        -- intros H k v [[= <- <-]|Hin] Hc; eauto.
        -- eauto.
      * split; [intros [? [=]]|].
        intros H. destruct (H key value (or_introl eq_refl) Es) as [x Hx].
        congruence.
Qed.

(** X2: the parser returns exactly for the lines that begin with a character
    of [0-9a-z] and in which the value of every group without the sentinel
    converts to a number.  One group that does not convert makes the whole
    line raise: no group is skipped for being malformed. *)
Theorem parse_ok_iff s :
  (exists move values, parse_info_line s = Ok (move, values)) <->
  (~ no_move_start s /\
   forall key value,
     In (key, value) (Re.findall_groups s) ->
     Re.contains "-.-" value = false ->
     exists x, stat_value key value = Ok x).
Proof.
  rewrite <- (parse_groups_ok_iff (Re.findall_groups s) ∅).
  unfold parse_info_line. split.
  - intros (move & values & H).
    destruct (parse_groups _ _) as [vals|] eqn:E; simpl in H; [|discriminate].
    split; [|eauto]. intros Hbad.
    rewrite (findall_move_no_move_start s Hbad) in H. discriminate.
  - intros [Hs [vals ->]]. simpl.
    destruct (Re.findall_move s) as [|mv l] eqn:E; [|eauto].
    exfalso. apply Hs. unfold Re.findall_move in E.
    destruct s as [|c s]; simpl; [exact I|].
    simpl in E. destruct (Re.is_move_char c); [|reflexivity].
    destruct (Re.span Re.is_move_char s); discriminate.
Qed.

Lemma parse_groups_app a : forall b m,
  parse_groups (a ++ b) m = rbind (parse_groups a m) (parse_groups b).
Proof.
  induction a as [|[k v] a IH]; simpl; intros b m; [reflexivity|].
  destruct (Re.contains "-.-" v); [apply IH|].
  destruct (stat_value k v); simpl; [apply IH | reflexivity].
Qed.

Lemma parse_groups_other key ms : forall m m',
  parse_groups ms m = Ok m' ->
  (forall v, In (key, v) ms -> Re.contains "-.-" v = true) ->
  m' !! key = m !! key.
Proof.
  induction ms as [|[k v] ms IH]; simpl; intros m m' H Hs.
  - now injection H as <-.
  - destruct (Re.contains "-.-" v) eqn:Es; [eauto|].
    destruct (stat_value k v) as [x|]; simpl in H; [|discriminate].
    rewrite (IH _ _ H) by eauto.
    apply lookup_insert_ne. intros ->.
    rewrite (Hs v (or_introl eq_refl)) in Es. discriminate.
Qed.

(** X3: when a code occurs in several groups of a line, the mapping holds
    the number of the last of them that is not a sentinel. *)
Theorem last_group_wins s move values pre key value post :
  parse_info_line s = Ok (move, values) ->
  Re.findall_groups s = pre ++ (key, value) :: post ->
  Re.contains "-.-" value = false ->
  (forall v, In (key, v) post -> Re.contains "-.-" v = true) ->
  exists x, stat_value key value = Ok x /\ values !! key = Some x.
Proof.
  unfold parse_info_line. intros H Hg Hv Hpost.
  destruct (parse_groups (Re.findall_groups s) ∅) as [vals|] eqn:E;
    simpl in H; [|discriminate].
  destruct (Re.findall_move s); [discriminate|]. injection H as _ <-.
  rewrite Hg, parse_groups_app in E.
  destruct (parse_groups pre ∅) as [m1|]; simpl in E; [|discriminate].
  rewrite Hv in E.
  destruct (stat_value key value) as [x|]; simpl in E; [|discriminate].
  exists x. split; [reflexivity|].
  rewrite (parse_groups_other key post _ _ E Hpost).
  apply lookup_insert_eq.
Qed.

Lemma last_group_wins_witness :
  exists x,
    stat_value "Q" "0.25" = Ok x /\
    ({[ "Q" := Fin (1 # 4) ]} : gmap string pyfloat) !! "Q" = Some x.
Proof.
  apply (last_group_wins "e2e4 (Q: 0.5) (Q: 0.25) (Q: -.-)" "e2e4"
           {[ "Q" := Fin (1 # 4) ]} [("Q", "0.5")] "Q" "0.25"
           [("Q", "-.-")]).
  - vm_compute. reflexivity.
  - vm_compute. reflexivity.
  - vm_compute. reflexivity.
  - intros v [[= <-]|[]]. vm_compute. reflexivity.
Defined.

Lemma all_chars_app p a b :
  all_chars p (a ++ b) = all_chars p a && all_chars p b.
Proof.
  induction a as [|c a IH]; [reflexivity|].
  change (String c a ++ b)%string with (String c (a ++ b)).
  simpl. now rewrite IH, andb_assoc.
Qed.

Lemma all_chars_impl (p q : ascii -> bool) s :
  (forall c, p c = true -> q c = true) ->
  all_chars p s = true -> all_chars q s = true.
Proof.
  intros H. induction s as [|c s IH]; simpl; [reflexivity|].
  intros Hs. apply andb_prop in Hs as [Hc Hs]. now rewrite (H c Hc), IH.
Qed.

Lemma digit_is_numeral c : is_digit c = true -> is_numeral_char c = true.
Proof. unfold is_numeral_char. intros ->. now rewrite !orb_true_r. Qed.

(** A numeral consists of numeral characters only. *)
Lemma parse_numeral_chars s d :
  Dec.parse s = Some d -> all_chars is_numeral_char s = true.
Proof.
  unfold Dec.parse.
  set (sb := match s with String "-" s' => (true, s') | _ => (false, s) end).
  assert (Hs : all_chars is_numeral_char s
               = all_chars is_numeral_char (snd sb)).
  { unfold sb. destruct s as [|c s']; [reflexivity|].
    destruct c as [[] [] [] [] [] [] [] []]; reflexivity. }
  rewrite Hs. destruct sb as [sign body]. simpl. clear Hs.
  destruct (span is_digit body) as [ip after] eqn:E1.
  apply ReFacts.span_spec in E1 as (-> & Hi & _).
  rewrite all_chars_app, (all_chars_impl _ _ ip digit_is_numeral Hi). simpl.
  destruct after as [|c s'].
  - reflexivity.
  - destruct (Ascii.eqb_spec c "."%char) as [->|Hc].
    + destruct (span is_digit s') as [fp rest] eqn:E2.
      apply ReFacts.span_spec in E2 as (-> & Hf & _).
      destruct rest; [|discriminate]. intros _.
      simpl. rewrite all_chars_app.
      now rewrite (all_chars_impl _ _ fp digit_is_numeral Hf).
    + assert (Hn : match c with "."%char => span is_digit s'
                   | _ => (EmptyString, String c s') end
                   = (EmptyString, String c s')).
      { destruct c as [[] [] [] [] [] [] [] []]; try reflexivity.
        now destruct Hc. }
      rewrite Hn. discriminate.
Qed.

Lemma no_percent s :
  all_chars is_numeral_char s = true -> contains "%" s = false.
Proof.
  induction s as [|c s IH]; [reflexivity|]. intros H.
  change (is_numeral_char c && all_chars is_numeral_char s = true) in H.
  apply andb_prop in H as [Hc Hs].
  change (String.prefix "%" (String c s) || contains "%" s = false).
  rewrite (IH Hs), orb_false_r.
  destruct c as [[] [] [] [] [] [] [] []];
    first [reflexivity | vm_compute in Hc; discriminate].
Qed.

Lemma div100_exact d :
  Dec.ndigits (Dec.coeff d) <= 28 ->
  (Dec.to_Q (Dec.div100 d) == Dec.to_Q d / 100)%Q.
Proof.
  intros H. unfold Dec.div100, Dec.round_context, Dec.context_prec.
  cbn [Dec.coeff Dec.neg Dec.exp].
  destruct (Z.leb_spec (Dec.ndigits (Dec.coeff d) - 28) 0); [|lia].
  unfold Dec.to_Q. cbn [Dec.coeff Dec.neg Dec.exp].
  rewrite Qpower_minus by discriminate.
  change ((10 # 1) ^ 2)%Q with (100 # 1)%Q. field.
Qed.

(** X4: under the code P the percent signs are removed and the numeral is
    divided by 100 in decimal arithmetic, so that the number stored is the
    binary64 number nearest to the exact quotient (for a numeral of at most 28
    digits); under any other code a percent sign in a value without the
    sentinel raises [ValueError]. *)
Theorem percent_only_under_P key value :
  (forall d, key = "P" ->
     Dec.parse (remove_char "%" value) = Some d ->
     Dec.ndigits (Dec.coeff d) <= 28 ->
     stat_value key value = Ok (to_float (Dec.to_Q d / 100))) /\
  (key <> "P" -> contains "%" value = true ->
     stat_value key value = Raise ValueError).
Proof.
  unfold stat_value. split.
  - intros d -> Hp Hn. rewrite Hp. simpl. unfold Dec.to_float.
    f_equal. apply RoundFacts.to_float_comp. now apply div100_exact.
  - intros Hk Hc. destruct (String.eqb_spec key "P") as [|_]; [contradiction|].
    destruct (Dec.parse value) as [d|] eqn:E; [|reflexivity].
    apply parse_numeral_chars, no_percent in E. congruence.
Qed.

Lemma percent_only_under_P_witness :
  stat_value "P" "12.34%" = Ok (to_float ((1234 # 100) / 100)) /\
  stat_value "Q" "12.34%" = Raise ValueError.
Proof.
  split.
  - assert (H : Dec.to_Q (Dec.mk_decimal false 1234 (-2)) = (1234 # 100)%Q)
      by (vm_compute; reflexivity).
    rewrite <- H.
    apply (proj1 (percent_only_under_P "P" "12.34%")
             (Dec.mk_decimal false 1234 (-2)));
      vm_compute; congruence.
  - apply (proj2 (percent_only_under_P "Q" "12.34%"));
      [discriminate | vm_compute; reflexivity].
Defined.

(** X5: the statistic-group pattern matches at the start of a text exactly
    when the text has the shape of an opening parenthesis, a non-empty key of
    word characters, a colon, blanks, a value over the characters [-.0-9%]
    and a closing parenthesis; the key, the value and the end of the match
    are then determined by the text. *)
Theorem group_shape s key value rest :
  (match_group s = Some (key, value, rest)
   <-> matches_group s key value rest) /\
  (forall key' value' rest',
     matches_group s key value rest -> matches_group s key' value' rest' ->
     key' = key /\ value' = value /\ rest' = rest).
Proof.
  split; [apply ReFacts.match_group_iff|].
  intros key' value' rest' H H'.
  apply ReFacts.match_group_iff in H, H'. rewrite H in H'.
  now injection H' as -> -> ->.
Qed.

End ParserFacts.

(** ** More on the statistic derivation *)

Module DeriveFacts.
Import FloatFacts.
Local Open Scope Q_scope.

(** The derivation on finite numbers of the two ranges, with the error of
    each number it returns. *)
Lemma derive_close (wl d : Q) :
  -1 <= wl <= 1 -> 0 <= d <= 1 ->
  exists w l : Q,
    derive_w (Fin wl) (Fin d) = Ok (Fin w) /\
    derive_l (Fin d) (Fin w) = Fin l /\
    Qabs (w - (wl - d + 1) * (1 # 2)) <= 3 * eps /\
    Qabs (l - (1 - d - wl) * (1 # 2)) <= 5 * eps.
Proof.
  intros Hwl Hd.
  pose proof (Qred_correct (- d)) as Hnd.
  float_step (wl + Qred (- d)) r1 E1 H1.
  float_step (r1 + 1) r2 E2 H2.
  assert (Hh : r2 / 2 == r2 * (1 # 2)) by field.
  revert Hh. remember (r2 / 2) as h eqn:Eh. intros Hh.
  float_step h w Ew Hw.
  float_step (1 + Qred (- d)) r3 E3 H3.
  pose proof (Qred_correct (- w)) as Hnw.
  float_step (r3 + Qred (- w)) l El Hl.
  exists w, l.
  unfold derive_w, derive_l, fsub, fadd, fneg, fdiv, one, two.
  change (is_zero (Fin 2)) with false. cbv iota. unfold fdiv_nz.
  rewrite E1, E2, <- Eh, Ew, E3, El.
  unfold eps in *.
  repeat split; apply Qabs_Qle_condition; lra.
Qed.

(** X6: for WL in [-1,1] and D in [0,1] the derived numbers satisfy
    [W - L = WL] and [L = (1 - D - WL) / 2] within 1e-9: the derivation
    splits what the draw probability leaves into a win and a loss
    probability whose difference is the win-loss differential. *)
Theorem derivation_recovers_wl (wl d : Q) :
  -1 <= wl <= 1 -> 0 <= d <= 1 ->
  exists w l : Q,
    derive_w (Fin wl) (Fin d) = Ok (Fin w) /\
    derive_l (Fin d) (Fin w) = Fin l /\
    Qabs ((w - l) - wl) <= tol /\
    Qabs (l - (1 - d - wl) / 2) <= tol.
Proof.
  intros Hwl Hd.
  destruct (derive_close wl d Hwl Hd) as (w & l & Ew & El & Hw & Hl).
  exists w, l. split; [exact Ew|]. split; [exact El|].
  assert (Hx : (1 - d - wl) / 2 == (1 - d - wl) * (1 # 2)) by field.
  rewrite Hx.
  apply Qabs_Qle_condition in Hw, Hl. unfold eps, tol in *.
  split; apply Qabs_Qle_condition; lra.
Qed.

(** X7: the derivation does not clamp.  For WL in [-1,1] and D in [0,1],
    W and L lie in [0,1] within 1e-9 when [|WL| <= 1 - D]; when [WL + D]
    exceeds 1 by more than 1e-9 the loss probability is negative, and when
    [WL] is below [D - 1] by more than 1e-9 the win probability is. *)
Theorem derivation_range (wl d : Q) :
  -1 <= wl <= 1 -> 0 <= d <= 1 ->
  exists w l : Q,
    derive_w (Fin wl) (Fin d) = Ok (Fin w) /\
    derive_l (Fin d) (Fin w) = Fin l /\
    (Qabs wl <= 1 - d -> - tol <= w <= 1 + tol /\ - tol <= l <= 1 + tol) /\
    (1 + tol < wl + d -> l < 0) /\
    (wl + tol < d - 1 -> w < 0).
Proof.
  intros Hwl Hd.
  destruct (derive_close wl d Hwl Hd) as (w & l & Ew & El & Hw & Hl).
  exists w, l. split; [exact Ew|]. split; [exact El|].
  apply Qabs_Qle_condition in Hw, Hl. unfold eps, tol in *.
  split; [|split].
  - intros Ha. apply Qabs_Qle_condition in Ha. lra.
  - intros H. lra.
  - intros H. lra.
Qed.

End DeriveFacts.

(** ** More on the two passes *)

Lemma dict_get_set k v d : Dict.get k (Dict.set k v d) = Some v.
Proof.
  induction d as [|[k' v'] d IH]; simpl.
  - now rewrite String.eqb_refl.
  - destruct (String.eqb_spec k k') as [->|Hne]; simpl.
    + now rewrite String.eqb_refl.
    + destruct (String.eqb_spec k k'); [contradiction | exact IH].
Qed.

Lemma dict_get_set_ne k k' v d :
  k' <> k -> Dict.get k' (Dict.set k v d) = Dict.get k' d.
Proof.
  intros Hne. induction d as [|[k0 v0] d IH]; simpl.
  - destruct (String.eqb_spec k' k); [contradiction | reflexivity].
  - destruct (String.eqb_spec k k0) as [->|Hk]; simpl.
    + destruct (String.eqb_spec k' k0); [contradiction | reflexivity].
    + now rewrite IH.
Qed.

Lemma dict_set_set k v1 v2 d :
  Dict.set k v2 (Dict.set k v1 d) = Dict.set k v2 d.
Proof.
  induction d as [|[k0 v0] d IH]; simpl.
  - now rewrite String.eqb_refl.
  - destruct (String.eqb_spec k k0) as [->|Hk]; simpl.
    + now rewrite String.eqb_refl.
    + destruct (String.eqb_spec k k0); [contradiction | now rewrite IH].
Qed.

Lemma dict_set_keys_new k v d :
  ~ In k (Dict.keys d) -> Dict.keys (Dict.set k v d) = Dict.keys d ++ [k].
Proof.
  induction d as [|[k0 v0] d IH]; simpl; [reflexivity|].
  intros H. destruct (String.eqb_spec k k0) as [->|Hk]; [tauto|].
  simpl. rewrite IH; tauto.
Qed.

Lemma setfield_spec results move f r' :
  setfield results move f = Ok r' ->
  exists row, Dict.get move results = Some row /\
              r' = Dict.set move (f row) results.
Proof.
  unfold setfield, getrow.
  destruct (Dict.get move results) as [row|]; simpl; [|discriminate].
  intros [= <-]. eauto.
Qed.

Lemma setfield_set k v d f :
  setfield (Dict.set k v d) k f = Ok (Dict.set k (f v) d).
Proof.
  unfold setfield, getrow. rewrite dict_get_set. simpl.
  now rewrite dict_set_set.
Qed.

(** What a completed iteration of the second loop does: nothing for a line
    that is filtered out; otherwise it fills in the row of the move of the
    line with the five statistics. *)
Lemma pass2_step_spec results line r' :
  pass2_step results line = Ok r' ->
  (stat_line line = None /\ r' = results) \/
  exists s move values row d wl q m w,
    stat_line line = Some s /\ parse_info_line s = Ok (move, values) /\
    values !! "D" = Some d /\ values !! "WL" = Some wl /\
    values !! "Q" = Some q /\ values !! "M" = Some m /\
    derive_w wl d = Ok w /\
    Dict.get move results = Some row /\
    r' = Dict.set move (filled row q w d (derive_l d w) m) results.
Proof.
  unfold pass2_step. destruct (stat_line line) as [s|]; [|intros [= <-]; auto].
  intros H. right.
  destruct (parse_info_line s) as [[move values]|] eqn:Ep;
    cbn [rbind fst snd] in H; [|discriminate].
  unfold getitem in H.
  destruct (values !! "D") as [d|] eqn:Ed; cbn [rbind] in H; [|discriminate].
  destruct (values !! "WL") as [wl|] eqn:Ewl; cbn [rbind] in H; [|discriminate].
  destruct (derive_w wl d) as [w|] eqn:Ew; cbn [rbind] in H; [|discriminate].
  destruct (values !! "Q") as [q|] eqn:Eq; cbn [rbind] in H; [|discriminate].
  destruct (setfield results move (Result.set_q_value q)) as [r1|] eqn:E1;
    cbn [rbind] in H; [|discriminate].
  apply setfield_spec in E1 as (row & Hrow & ->).
  rewrite setfield_set in H. cbn [rbind] in H.
  rewrite setfield_set in H. cbn [rbind] in H.
  rewrite setfield_set in H. cbn [rbind] in H.
  destruct (values !! "M") as [m|] eqn:Em; cbn [rbind] in H; [|discriminate].
  rewrite setfield_set in H. injection H as <-.
  exists s, move, values, row, d, wl, q, m, w.
  repeat split; auto.
Qed.

Lemma for_lines_app step a : forall b r,
  for_lines step (a ++ b) r = rbind (for_lines step a r) (for_lines step b).
Proof.
  induction a as [|l a IH]; simpl; intros b r; [reflexivity|].
  destruct (step r l); simpl; [apply IH | reflexivity].
Qed.

Lemma stat_line_none line :
  stat_line line = None <->
  line = None \/ exists s, line = Some s /\ Re.contains "node" s = true.
Proof.
  unfold stat_line. destruct line as [s|].
  - destruct (Re.contains "node" s) eqn:E; split; eauto; try discriminate.
    intros [H|(s' & [= <-] & H)]; congruence.
  - split; auto.
Qed.

Lemma for_lines_skip step before line after r :
  (forall r', step r' line = Ok r') ->
  for_lines step (before ++ line :: after) r
  = for_lines step (before ++ after) r.
Proof.
  intros H. rewrite !for_lines_app.
  destruct (for_lines step before r) as [r'|]; simpl; [|reflexivity].
  now rewrite H.
Qed.

(** X8: an item of the analysis stream without a string, or whose string
    contains [node] anywhere, has no effect on either pass: the pass gives
    what it gives on the stream without the item. *)
Theorem filtered_lines_are_ignored position network setting_hash
    (before after : list info) (line : info) :
  (line = None \/ exists s, line = Some s /\ Re.contains "node" s = true) ->
  pass1 position network setting_hash (before ++ line :: after)
    = pass1 position network setting_hash (before ++ after) /\
  forall results,
    pass2 (before ++ line :: after) results = pass2 (before ++ after) results.
Proof.
  intros H. apply stat_line_none in H.
  unfold pass1, pass2. split; [|intros results]; apply for_lines_skip;
    intros r'; [unfold pass1_step | unfold pass2_step]; now rewrite H.
Qed.

(** *** The rows of the first pass *)

Lemma dict_set_forall (P : string * Result.t -> Prop) k v d :
  P (k, v) -> Forall P d -> Forall P (Dict.set k v d).
Proof.
  intros Hv. induction 1 as [|[k' v'] d H Hd IH]; simpl.
  - constructor; [exact Hv | constructor].
  - destruct (String.eqb k k'); constructor; auto.
Qed.

Lemma dict_get_forall (P : string * Result.t -> Prop) k v d :
  Forall P d -> Dict.get k d = Some v -> P (k, v).
Proof.
  induction 1 as [|[k' v'] d H Hd IH]; simpl; [discriminate|].
  destruct (String.eqb_spec k k') as [->|Hne]; [|exact IH].
  now intros [= <-].
Qed.

Lemma dict_get_in k v d : Dict.get k d = Some v -> In (k, v) d.
Proof.
  induction d as [|[k' v'] d IH]; simpl; [discriminate|].
  destruct (String.eqb_spec k k') as [->|Hne]; [|auto].
  intros [= <-]. auto.
Qed.

Lemma nodup_snoc (l : list string) k :
  List.NoDup l -> ~ In k l -> List.NoDup (l ++ [k]).
Proof.
  induction 1 as [|x l Hx Hl IH]; simpl; intros Hk.
  - constructor; [intros [] | constructor].
  - constructor.
    + rewrite in_app_iff. simpl. intros [H|[H|[]]]; [auto | subst; auto].
    + apply IH. auto.
Qed.

Lemma dict_set_nodup k v d :
  List.NoDup (Dict.keys d) -> List.NoDup (Dict.keys (Dict.set k v d)).
Proof.
  intros H. destruct (in_dec string_dec k (Dict.keys d)) as [Hin|Hn].
  - now rewrite dict_set_keys.
  - rewrite dict_set_keys_new by exact Hn. now apply nodup_snoc.
Qed.

Lemma pass1_step_rows position network setting_hash results line r' :
  pass1_step position network setting_hash results line = Ok r' ->
  List.NoDup (Dict.keys results) /\
    fresh_rows position network setting_hash results ->
  List.NoDup (Dict.keys r') /\ fresh_rows position network setting_hash r'.
Proof.
  unfold pass1_step. destruct (stat_line line); [|now intros [= <-]].
  intros H [Hn Hf].
  destruct (parse_info_line s) as [mv|]; simpl in H; [|discriminate].
  destruct (getitem (snd mv) "P") as [p|]; simpl in H; [|discriminate].
  injection H as <-. split.
  - now apply dict_set_nodup.
  - apply dict_set_forall; [simpl; eauto | exact Hf].
Qed.

Lemma pass1_rows position network setting_hash lines r1 :
  pass1 position network setting_hash lines = Ok r1 ->
  List.NoDup (Dict.keys r1) /\ fresh_rows position network setting_hash r1.
Proof.
  intros H.
  apply (for_lines_inv (pass1_step position network setting_hash)
           (fun d => List.NoDup (Dict.keys d)
                     /\ fresh_rows position network setting_hash d))
    in H as [H _]; [exact H | | split; constructor].
  intros r l r' HP E. eapply pass1_step_rows; eauto.
Qed.

(** *** The rows of the second pass *)

Lemma evolved_refl a : evolved a a.
Proof. now left. Qed.

Lemma evolved_filled a row q w d m wl :
  derive_w wl d = Ok w ->
  evolved a row -> evolved a (filled row q w d (derive_l d w) m).
Proof.
  intros Hw [->|(q0 & w0 & d0 & m0 & wl0 & _ & ->)]; right;
    exists q, w, d, m, wl; split; auto.
Qed.

Lemma same_keys_evolved_refl d : same_keys_evolved d d.
Proof.
  induction d as [|x d IH]; constructor; auto using evolved_refl.
Qed.

Lemma same_keys_evolved_set r1 cur k row new :
  same_keys_evolved r1 cur -> Dict.get k cur = Some row ->
  (forall a, evolved a row -> evolved a new) ->
  same_keys_evolved r1 (Dict.set k new cur).
Proof.
  intros H Hget Hnew. revert Hget.
  induction H as [|[k1 a] [k2 b] r1 cur [Hk He] H IH]; simpl; [discriminate|].
  simpl in Hk. subst k2.
  destruct (String.eqb_spec k k1) as [->|Hne].
  - intros [= <-]. constructor; [split; [reflexivity | now apply Hnew] | exact H].
  - intros Hget. constructor; [split; [reflexivity | exact He] | now apply IH].
Qed.

Lemma same_keys_evolved_get r1 r2 k b :
  same_keys_evolved r1 r2 -> Dict.get k r2 = Some b ->
  exists a, Dict.get k r1 = Some a /\ evolved a b.
Proof.
  induction 1 as [|[k1 a] [k2 b'] r1 r2 [Hk He] H IH]; simpl; [discriminate|].
  simpl in Hk. subst k2.
  destruct (String.eqb_spec k k1) as [->|Hne]; [|exact IH].
  intros [= <-]. eauto.
Qed.

Lemma pass2_step_evolved r1 cur line r' :
  pass2_step cur line = Ok r' ->
  same_keys_evolved r1 cur -> same_keys_evolved r1 r'.
Proof.
  intros H Hinv.
  apply pass2_step_spec in H
    as [[_ ->]|(s & mv & vals & row & d & wl & q & m & w & _ & _ & _ & _ & _
                 & _ & Hw & Hrow & ->)]; [exact Hinv|].
  eapply same_keys_evolved_set; eauto using evolved_filled.
Qed.

Lemma pass2_evolved lines : forall r1 cur r2,
  pass2 lines cur = Ok r2 ->
  same_keys_evolved r1 cur -> same_keys_evolved r1 r2.
Proof.
  unfold pass2. induction lines as [|l lines IH]; simpl; intros r1 cur r2 H Hinv.
  - now injection H as <-.
  - destruct (pass2_step cur l) as [r'|] eqn:E; simpl in H; [|discriminate].
    eapply IH; eauto using pass2_step_evolved.
Qed.

(** X9: a completed second pass leaves every row either exactly as it
    found it or with all five statistics set, never with some of them; the
    position, network, settings hash, move and policy of the row are kept,
    W is derived from a WL and the stored D, and L is [1 - D - W]. *)
Theorem pass2_fills_rows_whole lines r1 r2 :
  pass2 lines r1 = Ok r2 ->
  forall move b, Dict.get move r2 = Some b ->
  exists a, Dict.get move r1 = Some a /\
    (b = a \/
     exists q w d m wl,
       derive_w wl d = Ok w /\ b = filled a q w d (derive_l d w) m).
Proof.
  intros H move b Hb.
  eapply same_keys_evolved_get; [|exact Hb].
  eapply pass2_evolved; eauto using same_keys_evolved_refl.
Qed.

(** X10: the row of a move that no line of the second pass reports is, after
    a completed second pass, the row the pass started with. *)
Theorem unreported_moves_keep_their_row lines : forall r1 r2 move,
  pass2 lines r1 = Ok r2 ->
  (forall line s mv values, In line lines -> stat_line line = Some s ->
     parse_info_line s = Ok (mv, values) -> mv <> move) ->
  Dict.get move r2 = Dict.get move r1.
Proof.
  unfold pass2. induction lines as [|l lines IH]; simpl; intros r1 r2 move H Hn.
  - now injection H as <-.
  - destruct (pass2_step r1 l) as [r'|] eqn:E; simpl in H; [|discriminate].
    rewrite (IH r' r2 move H) by eauto.
    apply pass2_step_spec in E
      as [[_ ->]|(s & mv & vals & row & d & wl & q & m & w & Hs & Hp & _ & _
                   & _ & _ & _ & Hrow & ->)]; [reflexivity|].
    apply dict_get_set_ne. intros ->.
    now apply (Hn l s mv vals (or_introl eq_refl) Hs Hp).
Qed.

(** *** Primary keys and the rows of a job *)

Lemma push_all_app {Board : Type} (push_san : Board -> string -> result Board)
    pre : forall post b,
  push_all Board push_san b (pre ++ post)
  = rbind (push_all Board push_san b pre)
          (fun b' => push_all Board push_san b' post).
Proof.
  induction pre as [|m pre IH]; simpl; intros post b; [reflexivity|].
  destruct (push_san b m); simpl; [apply IH | reflexivity].
Qed.






Lemma evolved_of_job position network setting_hash a b :
  evolved a b -> of_job position network setting_hash a ->
  of_job position network setting_hash b.
Proof. intros [->|(q & w & d & m & wl & _ & ->)]; auto. Qed.

Lemma fresh_rows_of_job position network setting_hash d k r :
  fresh_rows position network setting_hash d -> In (k, r) d ->
  of_job position network setting_hash r.
Proof.
  intros H Hin. unfold fresh_rows in H. rewrite List.Forall_forall in H.
  destruct (H _ Hin) as [p Hp]. simpl in Hp. subst. repeat split.
Qed.

Lemma same_keys_evolved_values position network setting_hash r1 r2 :
  same_keys_evolved r1 r2 ->
  fresh_rows position network setting_hash r1 ->
  forall r, In r (Dict.values r2) -> of_job position network setting_hash r.
Proof.
  unfold Dict.values.
  induction 1 as [|[k1 a] [k2 b] r1 r2 [Hk He] H IH]; simpl; [tauto|].
  intros Hf r [<-|Hin].
  - eapply evolved_of_job; [exact He|].
    eapply fresh_rows_of_job; [exact Hf | left; reflexivity].
  - apply IH; [|exact Hin]. now inversion Hf.
Qed.

(** *** Whole runs *)

(** X11: a completed first pass gives a dictionary without repeated moves
    in which the row of each move holds the position, network and settings
    hash of the job, the move and a policy, and no other statistic. *)
Theorem first_pass_rows position network setting_hash lines r1 :
  pass1 position network setting_hash lines = Ok r1 ->
  List.NoDup (Dict.keys r1) /\
  forall move r, Dict.get move r1 = Some r ->
    exists p, r = new_row position network setting_hash move p.
Proof.
  intros H. apply pass1_rows in H as [Hn Hf]. split; [exact Hn|].
  intros move r Hg.
  apply (dict_get_forall _ _ _ _ Hf Hg).
Qed.

Section RunFacts.

Context {Board : Type} (chess_Board : Board)
  (chess_Board_fen : string -> result Board)
  (push_san : Board -> string -> result Board)
  (lc0 : gmap string setting -> Board -> Z -> list info).
Context (position network : string) (settings : gmap string setting)
  (setting_hash : string) (is_fen : bool).

Abbreviation run :=
  (run_lc0_on_position Board chess_Board chess_Board_fen push_san lc0
     position network settings setting_hash is_fen).
Abbreviation resolve :=
  (resolve_position Board chess_Board chess_Board_fen push_san position is_fen).
Abbreviation o1 := (policy_options network).
Abbreviation o2 := (match_options settings network).
Abbreviation p1 board := (pass1 position network setting_hash (lc0 o1 board 1)).
Abbreviation p2 board := (pass2 (lc0 o2 board 800)).

(** X12: a line of the first pass that passes the filter and parses to a
    mapping without P makes the loop body raise [KeyError] for P; the run
    ends with an exception in the world of the first pass, the first engine
    still running and nothing added to the session. *)
Theorem first_pass_needs_policy w board line s move values :
  resolve = Ok board ->
  In line (lc0 o1 board 1) ->
  stat_line line = Some s -> parse_info_line s = Ok (move, values) ->
  values !! "P" = None ->
  (forall results,
     pass1_step position network setting_hash results line
     = Raise (KeyError "P")) /\
  exists e, run w = (Raise e, in_pass1 network w).
Proof.
  intros Hr Hin Hs Hp HP.
  assert (Hstep : forall results,
             pass1_step position network setting_hash results line
             = Raise (KeyError "P")).
  { intros results. unfold pass1_step. rewrite Hs, Hp. simpl.
    unfold getitem. now rewrite HP. }
  split; [exact Hstep|].
  pose proof (run_cases chess_Board chess_Board_fen push_san lc0 position
                network settings setting_hash is_fen w) as H.
  rewrite Hr in H.
  destruct (p1 board) as [r1|e] eqn:E1; [|eauto].
  apply (for_lines_inv _ (fun _ => True)) in E1 as [_ Hall]; auto.
  destruct (Hall line Hin) as (r0 & r' & _ & E). rewrite Hstep in E.
  discriminate.
Qed.

(** X13: a position that is neither empty nor one space and that the chess
    library rejects (the FEN, or the first move it cannot push, the moves
    being pushed from left to right) ends the run with the library's
    exception before an engine is launched: the world is unchanged. *)
Theorem bad_position_launches_nothing w :
  position <> "" -> position <> " " ->
  (forall e, is_fen = true -> chess_Board_fen position = Raise e ->
     run w = (Raise e, w)) /\
  (forall pre m post b e,
     is_fen = false ->
     Re.split_on " " position = pre ++ m :: post ->
     push_all Board push_san chess_Board pre = Ok b ->
     push_san b m = Raise e ->
     run w = (Raise e, w)).
Proof.
  intros H0 H1.
  pose proof (run_cases chess_Board chess_Board_fen push_san lc0 position
                network settings setting_hash is_fen w) as H.
  unfold resolve_position in H.
  destruct (String.eqb_spec position "") as [|_]; [contradiction|].
  destruct (String.eqb_spec position " ") as [|_]; [contradiction|].
  simpl in H. split.
  - intros e -> He. now rewrite He in H.
  - intros pre m post b e -> Hsplit Hpre Hm.
    rewrite Hsplit, push_all_app, Hpre in H. simpl in H.
    now rewrite Hm in H.
Qed.


End RunFacts.

(** *** The exceptions of a run *)

Lemma rbind_raise {A B} (r : result A) (k : A -> result B) e :
  rbind r k = Raise e ->
  r = Raise e \/ exists a, r = Ok a /\ k a = Raise e.
Proof. destruct r as [a|e']; simpl; [eauto | intros [= ->]; auto]. Qed.

Lemma stat_value_raise key value e :
  stat_value key value = Raise e -> not_exit e.
Proof.
  unfold stat_value. destruct (String.eqb key "P");
    [destruct (Dec.parse _) | destruct (Dec.parse _)];
    intros [= <-]; exact I.
Qed.

Lemma parse_groups_raise ms : forall m e,
  parse_groups ms m = Raise e -> not_exit e.
Proof.
  induction ms as [|[k v] ms IH]; simpl; intros m e; [discriminate|].
  destruct (Re.contains "-.-" v); [apply IH|].
  intros H. apply rbind_raise in H as [H|(x & _ & H)];
    [eapply stat_value_raise | eapply IH]; eauto.
Qed.

Lemma parse_info_line_raise s e :
  parse_info_line s = Raise e -> not_exit e.
Proof.
  unfold parse_info_line. intros H.
  apply rbind_raise in H as [H|(x & _ & H)];
    [eapply parse_groups_raise; eauto|].
  destruct (Re.findall_move s); [|discriminate]. injection H as <-. exact I.
Qed.

Lemma getitem_raise values k e : getitem values k = Raise e -> not_exit e.
Proof. unfold getitem. destruct (values !! k); intros [= <-]. exact I. Qed.

Lemma setfield_raise results move f e :
  setfield results move f = Raise e -> not_exit e.
Proof.
  unfold setfield, getrow. destruct (Dict.get move results); simpl;
    intros [= <-]. exact I.
Qed.

Ltac raise_step H :=
  apply rbind_raise in H as [H|(? & _ & H)];
  [first [ now apply parse_info_line_raise in H
         | now apply getitem_raise in H
         | now apply setfield_raise in H
         | idtac ] |].

Lemma pass1_step_raise position network setting_hash results line e :
  pass1_step position network setting_hash results line = Raise e ->
  not_exit e.
Proof.
  unfold pass1_step. destruct (stat_line line); [|discriminate].
  intros H. do 2 raise_step H. discriminate.
Qed.

Lemma pass2_step_raise results line e :
  pass2_step results line = Raise e -> not_exit e.
Proof.
  unfold pass2_step. destruct (stat_line line); [|discriminate].
  intros H. do 3 raise_step H.
  raise_step H. { discriminate. }
  do 6 raise_step H. now apply setfield_raise in H.
Qed.

Lemma for_lines_raise step lines :
  (forall r line e, step r line = Raise e -> not_exit e) ->
  forall r e, for_lines step lines r = Raise e -> not_exit e.
Proof.
  intros Hs. induction lines as [|l lines IH]; simpl; intros r e;
    [discriminate|].
  intros H. apply rbind_raise in H as [H|(r' & _ & H)]; eauto.
Qed.

(** ** The weights files and the main loop *)

Lemma int_of_string_raise s e : int_of_string s = Raise e -> e = ValueError.
Proof.
  unfold int_of_string.
  destruct (match s with
            | String "-" s' => (-1, s')
            | String "+" s' => (1, s')
            | _ => (1, s)
            end) as [sign body].
  destruct body; [intros [= <-]; reflexivity|].
  destruct (snd (Re.span Re.is_digit _)); [discriminate|].
  now intros [= <-].
Qed.

Section NetworkFacts.

Context (networks_df : list (Z * string)).

Abbreviation ensure := (ensure_network networks_df).

Lemma ensure_cases job last w :
  let net := Job.network job in
  let w' := with_files (files w ∖ {[str_opt last]}) w in
  if decide (net ∈ files w) then ensure job last w = (Ok last, w)
  else match int_of_string net with
       | Raise e => ensure job last w = (Raise e, w')
       | Ok n =>
           match List.filter (fun row => Z.eqb (fst row) n) networks_df with
           | [] => ensure job last w = (Raise IndexError, w')
           | row :: _ =>
               ensure job last w
               = (Ok (Some net), with_files ({[net]} ∪ files w') w)
           end
       end.
Proof.
  intros net w'. unfold ensure_network, bind, get_world.
  destruct (decide (net ∈ files w)) as [Hin|Hn]; fold net.
  - destruct (decide (net ∈ files w)); [reflexivity | contradiction].
  - destruct (decide (net ∈ files w)); [contradiction|].
    cbn [unlink_quiet lift]. fold w'.
    destruct (int_of_string net) as [num|e]; [|reflexivity].
    destruct (List.filter _ networks_df); reflexivity.
Qed.

Lemma ensure_table job last w :
  table (snd (ensure job last w)) = table w.
Proof.
  pose proof (ensure_cases job last w) as H. cbv zeta in H.
  destruct (decide _); [now rewrite H|].
  destruct (int_of_string _); [|now rewrite H].
  destruct (List.filter _ _); now rewrite H.
Qed.



End NetworkFacts.

Section LoopFacts.

Context {Board : Type} (chess_Board : Board)
  (chess_Board_fen : string -> result Board)
  (push_san : Board -> string -> result Board)
  (lc0 : gmap string setting -> Board -> Z -> list info)
  (jobs : list Job.t) (networks_df : list (Z * string)).

Abbreviation ensure := (ensure_network networks_df).
Abbreviation iteration :=
  (main_iteration Board chess_Board chess_Board_fen push_san lc0 jobs
     networks_df).
Abbreviation loop :=
  (main_loop Board chess_Board chess_Board_fen push_san lc0 jobs networks_df).
Abbreviation run_job job :=
  (run_lc0_on_position Board chess_Board chess_Board_fen push_san lc0
     (Job.position job) (Job.network job) (Job.settings job)
     (Job.setting_hash job)
     (match Job.position_type job with FEN => true | MOVES => false end)).

Lemma iteration_cases last w :
  match first_job jobs (table w) with
  | None => iteration last w = (Raise (SystemExit 0), w)
  | Some job =>
      match ensure job last w with
      | (Raise e, w1) => iteration last w = (Raise e, w1)
      | (Ok l, w1) =>
          match run_job job w1 with
          | (Raise e, w2) => iteration last w = (Raise e, w2)
          | (Ok _, w2) => iteration last w = (Ok l, w2)
          end
      end
  end.
Proof.
  unfold main_iteration, bind, get_world.
  destruct (first_job jobs (table w)) as [job|]; [|reflexivity].
  destruct (ensure job last w) as [[l|e] w1]; [|reflexivity].
  destruct (run_job job w1) as [[u|e] w2]; reflexivity.
Qed.


Lemma run_table_grows job w :
  exists rows, table (snd (run_job job w)) = table w ++ rows.
Proof.
  pose proof (run_cases chess_Board chess_Board_fen push_san lc0
                (Job.position job) (Job.network job) (Job.settings job)
                (Job.setting_hash job)
                (match Job.position_type job with
                 | FEN => true | MOVES => false end) w) as H.
  destruct (resolve_position _ _ _ _ _ _) as [board|e];
    [|rewrite H; exists []; now rewrite app_nil_r].
  destruct (pass1 _ _ _ _) as [r1|e];
    [|rewrite H; exists []; simpl; now rewrite app_nil_r].
  destruct (pass2 _ _) as [r2|e];
    [|rewrite H; exists []; simpl; now rewrite app_nil_r].
  rewrite H. unfold session_commit. destruct (pk_unique _); simpl.
  - eauto.
  - exists []. now rewrite app_nil_r.
Qed.

Lemma iteration_table_grows last w :
  exists rows, table (snd (iteration last w)) = table w ++ rows.
Proof.
  pose proof (iteration_cases last w) as H.
  destruct (first_job jobs (table w)) as [job|];
    [|rewrite H; exists []; now rewrite app_nil_r].
  pose proof (ensure_table networks_df job last w) as He.
  destruct (ensure job last w) as [[l|e] w1]; simpl in He;
    [|rewrite H; exists []; simpl; now rewrite He, app_nil_r].
  destruct (run_table_grows job w1) as [rows Hr].
  destruct (run_job job w1) as [[u|e] w2]; rewrite H; simpl in *;
    exists rows; congruence.
Qed.

(** X17: the main loop only appends to table results: after any number of
    iterations, however they end, the table is the table of before followed
    by new rows. *)
Theorem committed_rows_stay fuel : forall last w,
  exists rows,
    table (snd (main_loop Board chess_Board chess_Board_fen push_san lc0
                  jobs networks_df fuel last w))
    = table w ++ rows.
Proof.
  induction fuel as [|fuel IH]; intros last w; simpl.
  - exists []. now rewrite app_nil_r.
  - unfold bind. destruct (iteration_table_grows last w) as [rows Hr].
    destruct (iteration last w) as [[l|e] w1]; simpl in Hr.
    + destruct (IH l w1) as [rows' Hr']. exists (rows ++ rows').
      now rewrite Hr', Hr, app_assoc.
    + exists rows. exact Hr.
Qed.

Lemma for_lines_all_filtered step lines :
  (forall r line, stat_line line = None -> step r line = Ok r) ->
  (forall line, In line lines -> stat_line line = None) ->
  forall r, for_lines step lines r = Ok r.
Proof.
  intros Hs. induction lines as [|l lines IH]; simpl; intros Hl r;
    [reflexivity|].
  rewrite Hs by auto. simpl. auto.
Qed.

Lemma of_job_refers job r :
  of_job (Job.position job) (Job.network job) (Job.setting_hash job) r ->
  refers_to job r = true.
Proof.
  intros (H1 & H2 & H3). unfold refers_to.
  now rewrite H1, H2, H3, !String.eqb_refl.
Qed.

(** X18: after a run that returns and whose first pass reported at least
    one move, the job has result rows and the queue does not select it
    again. *)
Theorem finished_job_leaves_the_queue job w board r1 :
  fst (run_job job w) = Ok tt ->
  resolve_position Board chess_Board chess_Board_fen push_san
    (Job.position job)
    (match Job.position_type job with FEN => true | MOVES => false end)
  = Ok board ->
  pass1 (Job.position job) (Job.network job) (Job.setting_hash job)
    (lc0 (policy_options (Job.network job)) board 1) = Ok r1 ->
  r1 <> [] ->
  has_results (table (snd (run_job job w))) job = true /\
  first_job jobs (table (snd (run_job job w))) <> Some job.
Proof.
  intros Hok Hr H1 Hne.
  assert (Hres : has_results (table (snd (run_job job w))) job = true).
  { destruct (run_ok_inv _ _ _ _ _ _ _ _ _ _ Hok)
      as (b & r1' & r2 & Eb & E1 & E2 & Ht & _).
    rewrite Hr in Eb. injection Eb as <-. rewrite H1 in E1. injection E1 as <-.
    rewrite Ht. unfold has_results. rewrite !existsb_app.
    destruct (pass1_rows _ _ _ _ _ H1) as [_ Hf].
    pose proof (pass2_evolved _ r1 r1 r2 E2 (same_keys_evolved_refl r1)) as He.
    pose proof (same_keys_evolved_values _ _ _ _ _ He Hf) as Hall.
    destruct r2 as [|[k r] r2].
    - inversion He. subst. contradiction.
    - simpl. rewrite (of_job_refers job r) by (apply Hall; left; reflexivity).
      now rewrite !orb_true_r. }
  split; [exact Hres|]. intros Hsel.
  pose proof (first_job_selects jobs (table (snd (run_job job w)))) as Hs.
  rewrite Hsel in Hs. destruct Hs as (_ & Hn & _). congruence.
Qed.

Lemma job_without_moves_step job board last (T : list Result.t)
    (F : gset string) :
  first_job jobs T = Some job ->
  Job.network job ∈ F -> pk_unique T = true ->
  resolve_position Board chess_Board chess_Board_fen push_san
    (Job.position job)
    (match Job.position_type job with FEN => true | MOVES => false end)
  = Ok board ->
  (forall opts nodes line,
     In line (lc0 opts board nodes) -> stat_line line = None) ->
  forall fuel w,
    table w = T -> files w = F -> pending w = [] ->
    exists w', loop fuel last w = (Ok tt, w') /\ table w' = T /\
               launched w' = (launched w + 2 * fuel)%nat.
Proof.
  intros Hsel Hnet Hu Hr Hlines.
  induction fuel as [|fuel IH]; intros w Ht Hf Hp; simpl.
  - exists w. repeat split; auto; lia.
  - unfold bind.
    pose proof (iteration_cases last w) as Hi. rewrite Ht, Hsel in Hi.
    pose proof (ensure_cases networks_df job last w) as He. cbv zeta in He.
    rewrite Hf in He.
    destruct (decide (Job.network job ∈ F)); [|contradiction].
    rewrite He in Hi.
    pose proof (run_cases chess_Board chess_Board_fen push_san lc0
                  (Job.position job) (Job.network job) (Job.settings job)
                  (Job.setting_hash job)
                  (match Job.position_type job with
                   | FEN => true | MOVES => false end) w) as Hrun.
    rewrite Hr in Hrun.
    unfold pass1 in Hrun.
    rewrite (for_lines_all_filtered _ _) in Hrun; cycle 1.
    { intros r line Hn. unfold pass1_step. now rewrite Hn. }
    { intros line. apply Hlines. }
    unfold pass2 in Hrun.
    rewrite (for_lines_all_filtered _ _) in Hrun; cycle 1.
    { intros r line Hn. unfold pass2_step. now rewrite Hn. }
    { intros line. apply Hlines. }
    unfold session_commit in Hrun.
    cbn [table pending before_commit Dict.values map] in Hrun.
    rewrite Hp, Ht in Hrun. simpl app in Hrun. rewrite app_nil_r, Hu in Hrun.
    rewrite Hrun in Hi. rewrite Hi.
    match goal with
    | |- context [loop fuel last ?w1] =>
        destruct (IH w1 eq_refl Hf eq_refl) as (w' & Hl & Ht' & Hn')
    end.
    exists w'. split; [exact Hl|]. split; [exact Ht'|].
    rewrite Hn'. cbn [launched before_commit in_pass2 in_pass1]. lia.
Qed.

(** X19: a job for which the engine emits no statistic line in either pass
    commits no row and so stays the job the queue selects: with its weights
    file present, the main loop runs it again in every iteration, launching
    two engines each time, and never reaches [sys.exit]. *)
Theorem job_without_moves_is_repeated job board last w :
  first_job jobs (table w) = Some job ->
  (Job.network job ∈ files w) ->
  pending w = [] -> pk_unique (table w) = true ->
  resolve_position Board chess_Board chess_Board_fen push_san
    (Job.position job)
    (match Job.position_type job with FEN => true | MOVES => false end)
  = Ok board ->
  (forall opts nodes line,
     In line (lc0 opts board nodes) -> stat_line line = None) ->
  forall fuel,
    exists w', loop fuel last w = (Ok tt, w') /\ table w' = table w /\
               launched w' = (launched w + 2 * fuel)%nat.
Proof.
  intros Hsel Hnet Hp Hu Hr Hlines fuel.
  eapply job_without_moves_step; eauto.
Qed.

(** The chess library raises no [SystemExit]. *)
Hypothesis fen_raise :
  forall s e, chess_Board_fen s = Raise e -> not_exit e.
Hypothesis push_raise :
  forall b m e, push_san b m = Raise e -> not_exit e.

Lemma push_all_raise moves : forall b e,
  push_all Board push_san b moves = Raise e -> not_exit e.
Proof.
  induction moves as [|m moves IH]; simpl; intros b e; [discriminate|].
  intros H. apply rbind_raise in H as [H|(b' & _ & H)]; eauto.
Qed.

Lemma run_raise job w e : fst (run_job job w) = Raise e -> not_exit e.
Proof.
  pose proof (run_cases chess_Board chess_Board_fen push_san lc0
                (Job.position job) (Job.network job) (Job.settings job)
                (Job.setting_hash job)
                (match Job.position_type job with
                 | FEN => true | MOVES => false end) w) as H.
  destruct (resolve_position _ _ _ _ _ _) as [board|e0] eqn:Er.
  - destruct (pass1 _ _ _ _) as [r1|e1] eqn:E1.
    + destruct (pass2 _ _) as [r2|e2] eqn:E2.
      * rewrite H. unfold session_commit. destruct (pk_unique _); simpl;
          [discriminate | intros [= <-]; exact I].
      * rewrite H. simpl. intros [= <-].
        eapply for_lines_raise; [|exact E2]. apply pass2_step_raise.
    + rewrite H. simpl. intros [= <-].
      eapply for_lines_raise; [|exact E1]. apply pass1_step_raise.
  - rewrite H. simpl. intros [= <-]. unfold resolve_position in Er.
    destruct (_ || _); [discriminate|].
    destruct (match Job.position_type job with FEN => true | MOVES => false end);
      [eapply fen_raise | eapply push_all_raise]; eauto.
Qed.

Lemma ensure_raise job last w e :
  fst (ensure job last w) = Raise e -> not_exit e.
Proof.
  pose proof (ensure_cases networks_df job last w) as H. cbv zeta in H.
  destruct (decide _); [rewrite H; discriminate|].
  destruct (int_of_string _) as [num|e0] eqn:Ei.
  - destruct (List.filter _ _); rewrite H; [|discriminate].
    intros [= <-]. exact I.
  - rewrite H. intros [= <-]. apply int_of_string_raise in Ei. now subst.
Qed.

Lemma iteration_exit last w c w' :
  iteration last w = (Raise (SystemExit c), w') ->
  c = 0 /\ w' = w /\ first_job jobs (table w) = None.
Proof.
  pose proof (iteration_cases last w) as H.
  destruct (first_job jobs (table w)) as [job|].
  - pose proof (ensure_raise job last w) as He.
    destruct (ensure job last w) as [[l|e] w1]; simpl in He.
    + pose proof (run_raise job w1) as Hr.
      destruct (run_job job w1) as [[u|e] w2]; rewrite H; [discriminate|].
      intros [= -> _]. destruct (Hr _ eq_refl).
    + rewrite H. intros [= -> _]. destruct (He _ eq_refl).
  - rewrite H. now intros [= <- <-].
Qed.

(** X20: when the chess library raises no [SystemExit], the main loop ends
    with [SystemExit] only through [sys.exit(0)], and then every job has a
    result row. *)
Theorem exit_means_all_jobs_done fuel : forall last w c w',
  loop fuel last w = (Raise (SystemExit c), w') ->
  c = 0 /\ forall j, In j jobs -> has_results (table w') j = true.
Proof.
  induction fuel as [|fuel IH]; intros last w c w'; simpl; [discriminate|].
  unfold bind. destruct (iteration last w) as [[l|e] w1] eqn:E.
  - apply IH.
  - intros [= -> ->]. apply iteration_exit in E as (-> & -> & Hn).
    split; [reflexivity|].
    pose proof (first_job_selects jobs (table w)) as Hs.
    now rewrite Hn in Hs.
Qed.

End LoopFacts.

(** ** Network identifiers of one length *)

Lemma digits_value_acc s : forall acc,
  Dec.digits_value acc s
  = acc * 10 ^ Z.of_nat (String.length s) + Dec.digits_value 0 s.
Proof.
  induction s as [|c s IH]; intros acc.
  - simpl. lia.
  - cbn [Dec.digits_value String.length].
    rewrite (IH (10 * acc + Dec.digit_value c)), (IH (10 * 0 + Dec.digit_value c)).
    rewrite Nat2Z.inj_succ, Z.pow_succ_r by lia. ring.
Qed.

Lemma digit_value_range c : Re.is_digit c = true -> 0 <= Dec.digit_value c <= 9.
Proof.
  unfold Re.is_digit, Re.between, Dec.digit_value. intros H.
  apply andb_prop in H as [H1 H2].
  apply Nat.leb_le in H1, H2. lia.
Qed.

Lemma digits_value_bound s :
  Re.all_chars Re.is_digit s = true ->
  0 <= Dec.digits_value 0 s < 10 ^ Z.of_nat (String.length s).
Proof.
  induction s as [|c s IH]; intros H.
  - simpl. lia.
  - change (Re.is_digit c && Re.all_chars Re.is_digit s = true) in H.
    apply andb_prop in H as [Hc Hs]. specialize (IH Hs).
    cbn [Dec.digits_value String.length].
    rewrite digits_value_acc, Nat2Z.inj_succ, Z.pow_succ_r by lia.
    pose proof (digit_value_range c Hc). nia.
Qed.

Lemma ascii_compare_digits c1 c2 :
  Ascii.compare c1 c2 = Z.compare (Dec.digit_value c1) (Dec.digit_value c2).
Proof.
  unfold Ascii.compare, Dec.digit_value, Re.code, nat_of_ascii.
  rewrite !N_nat_Z, <- N2Z.inj_compare.
  destruct (Z.compare_spec (Z.of_N (N_of_ascii c1)) (Z.of_N (N_of_ascii c2)));
    symmetry; [apply Z.compare_eq_iff | apply Z.compare_lt_iff
              | apply Z.compare_gt_iff]; lia.
Qed.

(** On strings of digits of one length the order of strings is the order of
    the numbers. *)
Lemma compare_digit_strings a : forall b,
  String.length a = String.length b ->
  Re.all_chars Re.is_digit a = true -> Re.all_chars Re.is_digit b = true ->
  String.compare a b
  = Z.compare (Dec.digits_value 0 a) (Dec.digits_value 0 b).
Proof.
  induction a as [|c1 a IH]; intros [|c2 b] Hlen Ha Hb; try discriminate.
  - reflexivity.
  - change (Re.is_digit c1 && Re.all_chars Re.is_digit a = true) in Ha.
    change (Re.is_digit c2 && Re.all_chars Re.is_digit b = true) in Hb.
    apply andb_prop in Ha as [Hc1 Ha]. apply andb_prop in Hb as [Hc2 Hb].
    injection Hlen as Hlen.
    cbn [String.compare Dec.digits_value].
    rewrite ascii_compare_digits, (IH b Hlen Ha Hb).
    rewrite (digits_value_acc a (10 * 0 + Dec.digit_value c1)),
            (digits_value_acc b (10 * 0 + Dec.digit_value c2)), <- Hlen.
    pose proof (digits_value_bound a Ha) as Ba.
    pose proof (digits_value_bound b Hb) as Bb. rewrite <- Hlen in Bb.
    pose proof (digit_value_range c1 Hc1). pose proof (digit_value_range c2 Hc2).
    set (n := 10 ^ Z.of_nat (String.length a)) in *.
    set (x := Dec.digits_value 0 a) in *. set (y := Dec.digits_value 0 b) in *.
    set (d1 := Dec.digit_value c1) in *. set (d2 := Dec.digit_value c2) in *.
    destruct (Z.compare_spec d1 d2), (Z.compare_spec x y),
      (Z.compare_spec ((10 * 0 + d1) * n + x) ((10 * 0 + d2) * n + y));
      try reflexivity; exfalso; nia.
Qed.

Lemma int_of_digit_string s :
  s <> "" -> Re.all_chars Re.is_digit s = true ->
  int_of_string s = Ok (Dec.digits_value 0 s).
Proof.
  intros Hne Hs. unfold int_of_string.
  destruct s as [|c s']; [contradiction|].
  assert (Hsign : match String c s' with
                  | String "-" s0 => (-1, s0)
                  | String "+" s0 => (1, s0)
                  | _ => (1, String c s')
                  end = (1, String c s')).
  { change (Re.is_digit c && Re.all_chars Re.is_digit s' = true) in Hs.
    apply andb_prop in Hs as [Hc _].
    destruct c as [[] [] [] [] [] [] [] []]; try reflexivity;
      vm_compute in Hc; discriminate. }
  rewrite Hsign.
  destruct (Re.span Re.is_digit (String c s')) as [a b] eqn:E.
  pose proof (ReFacts.span_app Re.is_digit (String c s') "" Hs I) as E'.
  assert (Happ : (String c s' ++ "")%string = String c s').
  { clear. generalize (String c s'). intros s.
    induction s as [|x s IH]; [reflexivity|].
    change (String x s ++ "")%string with (String x (s ++ "")).
    now rewrite IH. }
  rewrite Happ, E in E'. injection E' as -> ->. simpl snd.
  f_equal. lia.
Qed.

(** X21: when the networks of the waiting jobs are strings of digits of one
    length, the job the queue selects has the numerically largest network
    among them. *)
Theorem equal_length_networks_in_numeric_order jobs table j (n : nat) :
  first_job jobs table = Some j ->
  (0 < n)%nat ->
  (forall j', In j' jobs -> has_results table j' = false ->
     Re.all_chars Re.is_digit (Job.network j') = true /\
     String.length (Job.network j') = n) ->
  forall j', In j' jobs -> has_results table j' = false ->
  exists a b,
    int_of_string (Job.network j) = Ok a /\
    int_of_string (Job.network j') = Ok b /\ b <= a.
Proof.
  intros Hsel Hn Hall j' Hj' Hw.
  pose proof (first_job_selects jobs table) as Hs. rewrite Hsel in Hs.
  destruct Hs as (Hj & Hjw & Hmax).
  destruct (Hall j Hj Hjw) as [Hd Hl]. destruct (Hall j' Hj' Hw) as [Hd' Hl'].
  exists (Dec.digits_value 0 (Job.network j)),
         (Dec.digits_value 0 (Job.network j')).
  assert (Hne : forall s, String.length s = n -> s <> "")
    by (intros s Hs ->; simpl in Hs; lia).
  split; [apply int_of_digit_string; auto|].
  split; [apply int_of_digit_string; auto|].
  specialize (Hmax j' Hj' Hw). unfold String.ltb in Hmax.
  rewrite compare_digit_strings in Hmax by congruence.
  destruct (Z.compare_spec (Dec.digits_value 0 (Job.network j))
              (Dec.digits_value 0 (Job.network j'))); first [lia | discriminate].
Qed.

(** ** Repeated moves and stray spaces *)

(** X22: a line of the first pass with a policy stores a fresh row under
    its move and leaves the other rows alone; a move reported before keeps
    its place in the order of the dictionary (its row is replaced), a new
    move is appended at the end. *)
Theorem first_pass_step position network setting_hash results line s move
    values p :
  stat_line line = Some s -> parse_info_line s = Ok (move, values) ->
  values !! "P" = Some p ->
  exists r',
    pass1_step position network setting_hash results line = Ok r' /\
    Dict.get move r' = Some (new_row position network setting_hash move p) /\
    (forall k, k <> move -> Dict.get k r' = Dict.get k results) /\
    (In move (Dict.keys results) -> Dict.keys r' = Dict.keys results) /\
    (~ In move (Dict.keys results) ->
       Dict.keys r' = Dict.keys results ++ [move]).
Proof.
  intros Hs Hp HP. unfold pass1_step. rewrite Hs, Hp. simpl.
  unfold getitem. rewrite HP. simpl. eexists. split; [reflexivity|].
  split; [apply dict_get_set|].
  split; [intros k Hk; now apply dict_get_set_ne|].
  split; [apply dict_set_keys | apply dict_set_keys_new].
Qed.

Lemma split_on_nonempty sep s : Re.split_on sep s <> [].
Proof.
  destruct s as [|c s]; simpl; [discriminate|].
  destruct (Ascii.eqb c sep); [discriminate|].
  destruct (Re.split_on sep s); discriminate.
Qed.

(** Splitting at a separator splits the two sides. *)
Lemma split_on_app sep a : forall b,
  Re.split_on sep (a ++ String sep b)%string
  = Re.split_on sep a ++ Re.split_on sep b.
Proof.
  induction a as [|c a IH]; intros b.
  - change ("" ++ String sep b)%string with (String sep b).
    simpl. now rewrite Ascii.eqb_refl.
  - change (String c a ++ String sep b)%string
      with (String c (a ++ String sep b)).
    simpl. rewrite IH. destruct (Ascii.eqb c sep); [reflexivity|].
    pose proof (split_on_nonempty sep a).
    destruct (Re.split_on sep a); [contradiction | reflexivity].
Qed.

Lemma split_on_empty_piece a b :
  a = "" \/ b = "" \/ (exists c, b = String " " c) ->
  In "" (Re.split_on " " (a ++ String " " b)%string).
Proof.
  intros H. rewrite split_on_app, in_app_iff.
  destruct H as [->|[->|[c ->]]].
  - left. simpl. auto.
  - right. simpl. auto.
  - right. simpl. auto.
Qed.

Lemma push_all_rejected {Board : Type}
    (push_san : Board -> string -> result Board) m moves :
  In m moves -> (forall b, exists e, push_san b m = Raise e) ->
  forall b, exists e, push_all Board push_san b moves = Raise e.
Proof.
  intros Hin Hm. induction moves as [|x moves IH]; [destruct Hin|].
  intros b. simpl. destruct (push_san b x) as [b'|e] eqn:E; simpl; [|eauto].
  destruct Hin as [->|Hin]; [|auto].
  destruct (Hm b) as [e He]. congruence.
Qed.

Section SpacesFacts.

Context {Board : Type} (chess_Board : Board)
  (chess_Board_fen : string -> result Board)
  (push_san : Board -> string -> result Board)
  (lc0 : gmap string setting -> Board -> Z -> list info).
Context (network : string) (settings : gmap string setting)
  (setting_hash : string).

(** X23: with a chess library that rejects the empty move, a move-sequence
    position with a leading, trailing or doubled space fails the run before
    an engine is launched: [split(" ")] yields an empty move for it. *)
Theorem stray_space_fails_the_job a b w :
  (forall board, exists e, push_san board "" = Raise e) ->
  (a ++ String " " b)%string <> " " ->
  a = "" \/ b = "" \/ (exists c, b = String " " c) ->
  exists e,
    run_lc0_on_position Board chess_Board chess_Board_fen push_san lc0
      (a ++ String " " b)%string network settings setting_hash false w
    = (Raise e, w).
Proof.
  intros Hpush Hne Hsp.
  pose proof (run_cases chess_Board chess_Board_fen push_san lc0
                (a ++ String " " b)%string network settings setting_hash
                false w) as H.
  unfold resolve_position in H.
  assert (E0 : String.eqb (a ++ String " " b)%string "" = false).
  { apply String.eqb_neq. destruct a; discriminate. }
  assert (E1 : String.eqb (a ++ String " " b)%string " " = false)
    by now apply String.eqb_neq.
  rewrite E0, E1 in H. simpl orb in H. cbv iota in H.
  destruct (push_all_rejected push_san "" _
              (split_on_empty_piece a b Hsp) Hpush chess_Board) as [e He].
  rewrite He in H. eauto.
Qed.

End SpacesFacts.

(** ** The properties on the runs of [Bench] *)

Lemma derivation_recovers_wl_witness :
  exists w l : Q,
    derive_w (Fin (3602879701896397 # 18014398509481984))
             (Fin (5404319552844595 # 18014398509481984)) = Ok (Fin w) /\
    derive_l (Fin (5404319552844595 # 18014398509481984)) (Fin w) = Fin l /\
    (Qabs ((w - l) - (3602879701896397 # 18014398509481984)) <= tol)%Q /\
    (Qabs (l - (1 - (5404319552844595 # 18014398509481984)
                - (3602879701896397 # 18014398509481984)) / 2) <= tol)%Q.
Proof.
  apply (DeriveFacts.derivation_recovers_wl
           (3602879701896397 # 18014398509481984)
           (5404319552844595 # 18014398509481984));
    split; unfold Qle; simpl; lia.
Defined.

Lemma derivation_range_witness :
  exists w l : Q,
    derive_w (Fin 1) (Fin 1) = Ok (Fin w) /\
    derive_l (Fin 1) (Fin w) = Fin l /\
    ((Qabs 1 <= 1 - 1)%Q ->
       (- tol <= w <= 1 + tol)%Q /\ (- tol <= l <= 1 + tol)%Q) /\
    ((1 + tol < 1 + 1)%Q -> (l < 0)%Q) /\
    ((1 + tol < 1 - 1)%Q -> (w < 0)%Q).
Proof.
  apply (DeriveFacts.derivation_range 1 1); split; unfold Qle; simpl; lia.
Defined.

Lemma filtered_lines_are_ignored_witness :
  pass1 "" "42850" "default"
    ([Some Bench.e2e4_unvisited] ++ Some Bench.summary
       :: [Some Bench.d2d4_unvisited])
  = pass1 "" "42850" "default"
      ([Some Bench.e2e4_unvisited] ++ [Some Bench.d2d4_unvisited]) /\
  forall results,
    pass2 ([Some Bench.e2e4_unvisited] ++ Some Bench.summary
             :: [Some Bench.d2d4_unvisited]) results
    = pass2 ([Some Bench.e2e4_unvisited] ++ [Some Bench.d2d4_unvisited])
        results.
Proof.
  apply (filtered_lines_are_ignored "" "42850" "default"
           [Some Bench.e2e4_unvisited] [Some Bench.d2d4_unvisited]
           (Some Bench.summary)).
  right. exists Bench.summary. split; [reflexivity | vm_compute; reflexivity].
Defined.

Lemma first_pass_rows_witness :
  List.NoDup (Dict.keys Bench.first_rows) /\
  forall move r, Dict.get move Bench.first_rows = Some r ->
    exists p, r = new_row "" "42850" "default" move p.
Proof.
  apply (first_pass_rows "" "42850" "default" Bench.first_pass).
  vm_compute. reflexivity.
Defined.

Lemma first_pass_needs_policy_witness :
  (forall results,
     pass1_step "" "42850" "default" results (Some "e2e4 (Q: 0.10000)")
     = Raise (KeyError "P")) /\
  exists e,
    Bench.run [Some "e2e4 (Q: 0.10000)"] []
    = (Raise e, in_pass1 "42850" Bench.w0).
Proof.
  apply (first_pass_needs_policy Bench.start Bench.of_fen Bench.push
           (Bench.scripted [Some "e2e4 (Q: 0.10000)"] [])
           "" "42850" ∅ "default" true Bench.w0 Bench.start
           (Some "e2e4 (Q: 0.10000)") "e2e4 (Q: 0.10000)" "e2e4"
           {[ "Q" := to_float (1 # 10) ]}).
  - reflexivity.
  - simpl. auto.
  - vm_compute. reflexivity.
  - vm_compute. reflexivity.
  - vm_compute. reflexivity.
Defined.

Lemma pass2_fills_rows_whole_witness :
  match pass2 [Some Bench.e2e4_searched] Bench.first_rows with
  | Ok r2 =>
      match Dict.get "e2e4" r2 with
      | Some b =>
          exists a, Dict.get "e2e4" Bench.first_rows = Some a /\
            (b = a \/
             exists q w d m wl,
               derive_w wl d = Ok w /\
               b = filled a q w d (derive_l d w) m)
      | None => False
      end
  | Raise _ => False
  end.
Proof.
  destruct (pass2 [Some Bench.e2e4_searched] Bench.first_rows) as [r2|e]
    eqn:E; [|vm_compute in E; discriminate].
  destruct (Dict.get "e2e4" r2) as [b|] eqn:G.
  - exact (pass2_fills_rows_whole _ _ _ E "e2e4" b G).
  - vm_compute in E. injection E as <-. vm_compute in G. discriminate.
Defined.

Lemma unreported_moves_keep_their_row_witness :
  match pass2 [Some Bench.e2e4_searched] Bench.first_rows with
  | Ok r2 => Dict.get "d2d4" r2 = Dict.get "d2d4" Bench.first_rows
  | Raise _ => False
  end.
Proof.
  destruct (pass2 [Some Bench.e2e4_searched] Bench.first_rows) as [r2|e]
    eqn:E.
  - apply (unreported_moves_keep_their_row _ _ _ _ E).
    intros line s mv values [<-|[]] Hs Hp.
    vm_compute in Hs. injection Hs as <-.
    vm_compute in Hp. injection Hp as <- _. discriminate.
  - vm_compute in E. discriminate.
Defined.

Lemma bad_position_launches_nothing_witness :
  Bench.run_moves "e4  e5" [] [] = (Raise ValueError, Bench.w0).
Proof.
  apply (proj2 (bad_position_launches_nothing Bench.start Bench.of_fen
                  Bench.push (Bench.scripted [] []) "e4  e5" "42850" ∅
                  "default" false Bench.w0 ltac:(discriminate)
                  ltac:(discriminate))
           ["e4"] "" ["e5"] ["e4"] ValueError);
    reflexivity.
Defined.




Lemma finished_job_leaves_the_queue_witness :
  has_results
    (table (snd (Bench.run Bench.first_pass [Some Bench.e2e4_searched])))
    (Bench.job 1 "42850") = true /\
  first_job [Bench.job 1 "42850"]
    (table (snd (Bench.run Bench.first_pass [Some Bench.e2e4_searched])))
  <> Some (Bench.job 1 "42850").
Proof.
  apply (finished_job_leaves_the_queue Bench.start Bench.of_fen Bench.push
           (Bench.scripted Bench.first_pass [Some Bench.e2e4_searched])
           [Bench.job 1 "42850"] (Bench.job 1 "42850") Bench.w0 Bench.start
           Bench.first_rows).
  - vm_compute. reflexivity.
  - reflexivity.
  - vm_compute. reflexivity.
  - discriminate.
Defined.

Lemma job_without_moves_is_repeated_witness :
  exists w',
    main_loop Bench.Board Bench.start Bench.of_fen Bench.push
      (Bench.scripted [Some Bench.summary] [None]) [Bench.job 1 "42850"]
      Bench.catalogue 3 None Bench.w_ready = (Ok tt, w') /\
    table w' = table Bench.w_ready /\
    launched w' = (launched Bench.w_ready + 2 * 3)%nat.
Proof.
  apply (job_without_moves_is_repeated Bench.start Bench.of_fen Bench.push
           (Bench.scripted [Some Bench.summary] [None])
           [Bench.job 1 "42850"] Bench.catalogue (Bench.job 1 "42850")
           Bench.start None Bench.w_ready).
  - vm_compute. reflexivity.
  - vm_compute. reflexivity.
  - reflexivity.
  - reflexivity.
  - reflexivity.
  - intros opts nodes line. unfold Bench.scripted.
    destruct (Z.eqb nodes 1); intros [<-|[]]; vm_compute; reflexivity.
Defined.

Lemma exit_means_all_jobs_done_witness :
  0 = 0 /\
  forall j, In j [Bench.job 1 "42850"] ->
    has_results (table Bench.w_done) j = true.
Proof.
  apply (exit_means_all_jobs_done Bench.start Bench.of_fen Bench.push
           (Bench.scripted [] []) [Bench.job 1 "42850"] Bench.catalogue)
    with (fuel := 1%nat) (last := None) (w := Bench.w_done).
  - intros s e. destruct s; intros [= <-]; exact I.
  - intros b m e. destruct m; intros [= <-]; exact I.
  - vm_compute. reflexivity.
Defined.

Lemma equal_length_networks_in_numeric_order_witness :
  exists a b,
    int_of_string (Job.network (Bench.job 2 "42851")) = Ok a /\
    int_of_string (Job.network (Bench.job 1 "42850")) = Ok b /\ b <= a.
Proof.
  apply (equal_length_networks_in_numeric_order
           [Bench.job 1 "42850"; Bench.job 2 "42851"] []
           (Bench.job 2 "42851") 5).
  - vm_compute. reflexivity.
  - lia.
  - intros j' [<-|[<-|[]]] _; split; reflexivity.
  - left. reflexivity.
  - reflexivity.
Defined.

Lemma first_pass_step_witness :
  exists r',
    pass1_step "" "42850" "default" [] (Some Bench.e2e4_unvisited) = Ok r' /\
    Dict.get "e2e4" r'
    = Some (new_row "" "42850" "default" "e2e4" (to_float (6 # 10))) /\
    (forall k, k <> "e2e4" -> Dict.get k r' = Dict.get k []) /\
    (In "e2e4" (Dict.keys []) -> Dict.keys r' = Dict.keys []) /\
    (~ In "e2e4" (Dict.keys []) -> Dict.keys r' = Dict.keys [] ++ ["e2e4"]).
Proof.
  eapply (first_pass_step "" "42850" "default" []
            (Some Bench.e2e4_unvisited) Bench.e2e4_unvisited "e2e4").
  - reflexivity.
  - vm_compute. reflexivity.
  - vm_compute. reflexivity.
Defined.

Lemma stray_space_fails_the_job_witness :
  exists e, Bench.run_moves "e4 " [] [] = (Raise e, Bench.w0).
Proof.
  apply (stray_space_fails_the_job Bench.start Bench.of_fen Bench.push
           (Bench.scripted [] []) "42850" ∅ "default" "e4" "" Bench.w0).
  - intros board. eexists. reflexivity.
  - discriminate.
  - right. left. reflexivity.
Defined.
